(** * Second-opinion transcription: clustering, reconciliation and the ASR client

    A shallow embedding of [src/lib/clustering.ts], [src/lib/reconciliation.ts]
    and the word extraction of [src/lib/whisper.ts].

    Conventions of the model.
    - A JavaScript number is the rational it stands for ([Q]).  The sums,
      differences, products and quotients of the clustering code and of the
      confidence helpers are rounded as binary64 rounds them ([Num.round]:
      to nearest, ties to even, 53 bits, subnormal numbers included).
      [reconcile] compares the quotient of two string lengths with 7/10,
      which no rounding changes for a length that a string can have.
      Overflow beyond the largest finite number, infinities, [NaN] and the
      sign of zero are outside the model.  A decimal literal of an example
      stands for the rational it writes; where an example depends on the
      binary64 number nearest to it, [Num.round] is written.
    - A JavaScript string is its sequence of UTF-16 code units ([list N]);
      ASCII literals are written with [lit].
    - An array is a [list]; [push] appends at the end; an index cursor into an
      array that is only ever advanced is the suffix still to be read. *)

From Stdlib Require Import List Bool Arith Lia Sorted.
From Stdlib Require Import NArith ZArith QArith Qminmax Lqa Qround.
From Stdlib Require Import Ascii String DecimalString.
Import ListNotations.

Open Scope Q_scope.

(** ** Numbers *)

Module Num.

(** [a < b], [a <= b] and [a >= b] of the source, as booleans. *)
Definition ltb (a b : Q) : bool := negb (Qle_bool b a).
Definition leb (a b : Q) : bool := Qle_bool a b.
Definition geb (a b : Q) : bool := Qle_bool b a.

(** [arr.length] as a number. *)
Definition ofNat (n : nat) : Q := inject_Z (Z.of_nat n).

(** *** The rounding of binary64

    Every finite binary64 number is a whole number of units of [2^-1074];
    [unitsPerOne] is the number of such units in one. *)
Definition unitsPerOne : Z := (2 ^ 1074)%Z.

(** The integer nearest to [m], the even one of the two when [m] is half way. *)
Definition rne (m : Q) : Z :=
  let f := Qfloor m in
  match Qcompare (m - inject_Z f) (1 # 2) with
  | Lt => f
  | Gt => (f + 1)%Z
  | Eq => if Z.even f then f else (f + 1)%Z
  end.

(** The distance, in units, between neighbouring numbers around [a] units:
    a significand has 53 bits, and below [2^53] units the distance is one
    unit (the subnormal numbers and the first normal binade). *)
Definition spacingExponent (a : Q) : Z := Z.max (Z.log2 (Qfloor a) - 52) 0.
Definition spacing (a : Q) : Z := (2 ^ spacingExponent a)%Z.

(** [a] units, with [0 <= a], rounded to a number of units. *)
Definition roundUnits (a : Q) : Z :=
  (rne (a / inject_Z (spacing a)) * spacing a)%Z.

Definition roundMagnitude (a : Q) : Q :=
  inject_Z (roundUnits (a * inject_Z unitsPerOne)) / inject_Z unitsPerOne.

(** The binary64 number nearest to [x]. *)
Definition round (x : Q) : Q :=
  Qred (if Qle_bool 0 x then roundMagnitude x else - roundMagnitude (- x)).

(** [a + b], [a - b], [a * b] and [a / b] of the source.  A quotient by
    zero, which the source gives as [NaN] or as an infinity, is outside the
    model (in [Q] it is 0): the divisors of the clustering code are 2 and
    the lengths of arrays that hold an element. *)
Definition add (a b : Q) : Q := round (a + b).
Definition sub (a b : Q) : Q := round (a - b).
Definition mul (a b : Q) : Q := round (a * b).
Definition div (a b : Q) : Q := round (a / b).

End Num.

(** ** Strings *)

Module Str.

(** A string is its sequence of UTF-16 code units. *)
Definition t := list N.

(** An ASCII literal. *)
Fixpoint lit (s : string) : t :=
  match s with
  | EmptyString => []
  | String c r => N_of_ascii c :: lit r
  end.

Definition eqb (a b : t) : bool :=
  if list_eq_dec N.eq_dec a b then true else false.

(** [arr.join(sep)]. *)
Fixpoint join (sep : t) (parts : list t) : t :=
  match parts with
  | [] => []
  | [p] => p
  | p :: rest => p ++ sep ++ join sep rest
  end.

Fixpoint startsWith (prefix s : t) : bool :=
  match prefix, s with
  | [], _ => true
  | _ :: _, [] => false
  | a :: p, b :: r => N.eqb a b && startsWith p r
  end.

(** [hay.includes(needle)], the test behind [toContain]. *)
Fixpoint includes (needle hay : t) : bool :=
  startsWith needle hay ||
  match hay with
  | [] => false
  | _ :: r => includes needle r
  end.

(** [String(n)] for an array index. *)
Definition ofNat (n : nat) : t := lit (NilZero.string_of_uint (Nat.to_uint n)).

(** The class [\s] of a regular expression without the [u] flag, which is
    also what [trim] removes: WhiteSpace and LineTerminator code units. *)
Definition isSpace (c : N) : bool :=
  ((9 <=? c) && (c <=? 13) || (c =? 32) || (c =? 160) || (c =? 5760)
   || (8192 <=? c) && (c <=? 8202) || (c =? 8232) || (c =? 8233)
   || (c =? 8239) || (c =? 8287) || (c =? 12288) || (c =? 65279))%N.

(** The class [\w]: [A-Za-z0-9_]. *)
Definition isWordChar (c : N) : bool :=
  ((65 <=? c) && (c <=? 90) || (97 <=? c) && (c <=? 122)
   || (48 <=? c) && (c <=? 57) || (c =? 95))%N.

Fixpoint dropWhile (f : N -> bool) (s : t) : t :=
  match s with
  | [] => []
  | c :: r => if f c then dropWhile f r else s
  end.

Definition trimStart (s : t) : t := dropWhile isSpace s.

(** [s.trimEnd()]: a unit stays when something stays after it or when it is
    not white space itself. *)
Fixpoint trimEnd (s : t) : t :=
  match s with
  | [] => []
  | c :: r =>
      match trimEnd r with
      | [] => if isSpace c then [] else [c]
      | kept => c :: kept
      end
  end.

(** [s.trim()]. *)
Definition trim (s : t) : t := trimEnd (trimStart s).

(** Lower-casing of one code unit.  [A-Z] go to [a-z]; U+0130 and U+212A are
    the two code points outside ASCII whose lower case reaches into ASCII.
    The other case pairs of Unicode send a unit outside ASCII and outside
    [\s] to units outside ASCII and outside [\s]; they are left in place
    here, which [cleanText] cannot tell apart since its next step deletes
    either form. *)
Definition lowerUnit (c : N) : t :=
  if ((65 <=? c) && (c <=? 90))%N then [(c + 32)%N]
  else if (c =? 304)%N then [105%N; 775%N]
  else if (c =? 8490)%N then [107%N]
  else [c].

(** [s.toLowerCase()]. *)
Definition toLowerCase (s : t) : t := flat_map lowerUnit s.

(** [s.replace(/[^\w\s]/g, '')]. *)
Definition stripNonWordNonSpace (s : t) : t :=
  filter (fun c => isWordChar c || isSpace c) s.

(** [s.replace(/\s+/g, ' ')]; [inRun] tells that the previous unit was
    white space, so that the current run has been replaced already. *)
Fixpoint collapseFrom (inRun : bool) (s : t) : t :=
  match s with
  | [] => []
  | c :: r =>
      if isSpace c
      then (if inRun then collapseFrom true r else 32%N :: collapseFrom true r)
      else c :: collapseFrom false r
  end.

Definition collapseWhitespace (s : t) : t := collapseFrom false s.

End Str.

(** ** [src/lib/whisper.ts] *)

Record WhisperWord := mkWord {
  word : Str.t;
  start : Q;
  end_ : Q;
  probability : Q
}.

(** The value of a property of a parsed JSON object. *)
Inductive JsField (A : Type) :=
| Absent
| Null
| Present (a : A).
Arguments Absent {A}.
Arguments Null {A}.
Arguments Present {A} a.

Module Whisper.

(** [WhisperResponse]; the pipeline reads [words] only, [segments] is left out. *)
Record WhisperResponse := mkResponse {
  text : Str.t;
  words : JsField (list WhisperWord);
  language : Str.t;
  duration : Q
}.

(** [response.words || []]: an array is truthy, [undefined] and [null] are not. *)
Definition extractWords (response : WhisperResponse) : list WhisperWord :=
  match words response with
  | Present ws => ws
  | Absent | Null => []
  end.

End Whisper.

(** ** [src/lib/clustering.ts] *)

Module Clustering.

Record ConfidenceCluster := mkCluster {
  id : Str.t;
  words : list WhisperWord;
  centerTime : Q;
  startTime : Q;
  endTime : Q;
  averageConfidence : Q;
  clipStart : Q;
  clipEnd : Q
}.

Record ClusteringOptions := mkOptions {
  confidenceThreshold : Q;
  proximityThreshold : Q;
  correctionWindow : Q
}.

(** What reading a field of [arr[0]] of an empty array stands for; the arrays
    of [rawClusters] all hold a word (lemma [chunks_Forall]), so the source
    never makes that read. *)
Definition noWord : WhisperWord := mkWord [] 0 0 0.

Fixpoint mapIndexFrom {A B : Type} (f : A -> nat -> B) (index : nat) (l : list A) : list B :=
  match l with
  | [] => []
  | a :: r => f a index :: mapIndexFrom f (S index) r
  end.

Section Service.

Variable options : ClusteringOptions.

(** Step 1: [words.filter(word => word.probability < confidenceThreshold)]. *)
Definition lowConfidenceWords (ws : list WhisperWord) : list WhisperWord :=
  filter (fun w => Num.ltb (probability w) (confidenceThreshold options)) ws.

(** Step 2: the [for] loop over [lowConfidenceWords[1..]], with the closing
    [rawClusters.push(currentCluster)]. *)
Fixpoint groupLoop (rawClusters : list (list WhisperWord))
    (currentCluster : list WhisperWord) (rest : list WhisperWord)
    : list (list WhisperWord) :=
  match rest with
  | [] => rawClusters ++ [currentCluster]
  | currentWord :: rest' =>
      let lastWord := last currentCluster noWord in
      if Num.leb (Num.sub (start currentWord) (end_ lastWord))
                 (proximityThreshold options)
      then groupLoop rawClusters (currentCluster ++ [currentWord]) rest'
      else groupLoop (rawClusters ++ [currentCluster]) [currentWord] rest'
  end.

(** Step 3: the callback of [rawClusters.map]. *)
Definition annotate (clusterWords : list WhisperWord) (index : nat) : ConfidenceCluster :=
  let startTime := start (hd noWord clusterWords) in
  let endTime := end_ (last clusterWords noWord) in
  let centerTime := Num.div (Num.add startTime endTime) 2 in
  let totalConfidence :=
    fold_left (fun sum w => Num.add sum (probability w)) clusterWords 0 in
  let averageConfidence :=
    Num.div totalConfidence (Num.ofNat (List.length clusterWords)) in
  let halfWindow := Num.div (correctionWindow options) 2 in
  let clipStart := Qmax 0 (Num.sub centerTime halfWindow) in
  let clipEnd := Num.add centerTime halfWindow in
  {| id := Str.lit "cluster_" ++ Str.ofNat index;
     words := clusterWords;
     centerTime := centerTime;
     startTime := startTime;
     endTime := endTime;
     averageConfidence := averageConfidence;
     clipStart := clipStart;
     clipEnd := clipEnd |}.

End Service.

(** The object built in the overlapping branch of [mergeOverlappingClusters].
    On two clusters without words the source divides zero by zero; the
    clusters that [clusterLowConfidenceWords] builds all hold a word. *)
Definition mergePair (current next : ConfidenceCluster) : ConfidenceCluster :=
  {| id := id current ++ Str.lit "_" ++ id next;
     words := words current ++ words next;
     centerTime := Num.div (Num.add (centerTime current) (centerTime next)) 2;
     startTime := Qmin (startTime current) (startTime next);
     endTime := Qmax (endTime current) (endTime next);
     averageConfidence :=
       Num.div
         (Num.add
            (Num.mul (averageConfidence current)
                     (Num.ofNat (List.length (words current))))
            (Num.mul (averageConfidence next)
                     (Num.ofNat (List.length (words next)))))
         (Num.ofNat (List.length (words current) + List.length (words next)));
     clipStart := Qmin (clipStart current) (clipStart next);
     clipEnd := Qmax (clipEnd current) (clipEnd next) |}.

(** The [for] loop of [mergeOverlappingClusters] with its closing [push]. *)
Fixpoint mergeLoop (merged : list ConfidenceCluster) (current : ConfidenceCluster)
    (rest : list ConfidenceCluster) : list ConfidenceCluster :=
  match rest with
  | [] => merged ++ [current]
  | next :: rest' =>
      if Num.geb (clipEnd current) (clipStart next)
      then mergeLoop merged (mergePair current next) rest'
      else mergeLoop (merged ++ [current]) next rest'
  end.

Definition mergeOverlappingClusters (clusters : list ConfidenceCluster)
    : list ConfidenceCluster :=
  match clusters with
  | [] | [_] => clusters
  | first :: rest => mergeLoop [] first rest
  end.

(** Steps 2 and 3 together: the value of [clusters] before step 4 merges
    overlapping windows. *)
Definition annotatedClusters (options : ClusteringOptions) (ws : list WhisperWord)
    : list ConfidenceCluster :=
  match lowConfidenceWords options ws with
  | [] => []
  | first :: rest =>
      mapIndexFrom (annotate options) 0 (groupLoop options [] [first] rest)
  end.

Definition clusterLowConfidenceWords (options : ClusteringOptions)
    (ws : list WhisperWord) : list ConfidenceCluster :=
  match ws with
  | [] => []
  | _ :: _ =>
      match lowConfidenceWords options ws with
      | [] => []
      | _ :: _ => mergeOverlappingClusters (annotatedClusters options ws)
      end
  end.

(** The options of the test suite and of the environment defaults. *)
Definition defaults : ClusteringOptions := mkOptions 0.6 5 20.

End Clustering.

(** ** [src/lib/reconciliation.ts] *)

Module Reconciliation.

Record ReconciliationResult := mkResult {
  success : bool;
  originalText : Str.t;
  correctedText : Str.t;
  levenshteinDistance : nat;
  shouldApply : bool;
  reason : option Str.t
}.

Record MergedTranscript := mkMerged {
  text : Str.t;
  appliedCorrections : nat;
  skippedCorrections : nat
}.

(** The element type of the [corrections] argument of [mergeTranscript]. *)
Module Correction.

Record t := mk {
  clipStart : Q;
  clipEnd : Q;
  correctedText : Str.t;
  shouldApply : bool
}.

End Correction.

Definition MAX_LEVENSHTEIN_RATIO : Q := 0.7.

(** *** The edit distance of the [fast-levenshtein] package

    [levenshtein.get(a, b)]: insertions, deletions and substitutions of code
    units at cost one each, computed one row of the table at a time.  [prev]
    is the row of the previous unit of [a], [left] the cell just written. *)
Fixpoint levRow (c : N) (b : Str.t) (prev : list nat) (left : nat) : list nat :=
  match b, prev with
  | bj :: b', diag :: ((up :: _) as prev') =>
      let cur :=
        Nat.min (Nat.min (up + 1) (left + 1))
                (diag + if N.eqb c bj then 0 else 1) in
      cur :: levRow c b' prev' cur
  | _, _ => []
  end.

Definition levStep (b : Str.t) (prev : list nat) (c : N) : list nat :=
  let first := S (hd 0%nat prev) in
  first :: levRow c b prev first.

Definition levenshtein (a b : Str.t) : nat :=
  last (fold_left (levStep b) a (seq 0 (S (List.length b)))) 0%nat.

(** *** [cleanText] *)

Definition cleanText (text : Str.t) : Str.t :=
  Str.collapseWhitespace
    (Str.stripNonWordNonSpace
       (Str.toLowerCase
          (Str.trim text))).

(** *** [joinWords] and [isPunctuation] *)

(** The units of the character class of [isPunctuation]: full stop, comma,
    exclamation and question mark, semicolon, colon, both quotes, both
    parentheses and the hyphen. *)
Definition punctuationUnits : list N :=
  [46; 44; 33; 63; 59; 58; 39; 34; 40; 41; 45]%N.

(** The test of the anchored pattern: one unit at least, all of the class. *)
Definition isPunctuation (w : Str.t) : bool :=
  match w with
  | [] => false
  | _ :: _ => forallb (fun c => existsb (N.eqb c) punctuationUnits) w
  end.

(** The loop of [joinWords]; [prevWord] is [words[i - 1]]. *)
Fixpoint joinLoop (result : Str.t) (prevWord : Str.t) (rest : list Str.t) : Str.t :=
  match rest with
  | [] => result
  | w :: rest' =>
      let needsSpace := negb (isPunctuation w) && negb (isPunctuation prevWord) in
      let result := if needsSpace then result ++ Str.lit " " else result in
      joinLoop (result ++ w) w rest'
  end.

Definition joinWords (ws : list Str.t) : Str.t :=
  match ws with
  | [] => []
  | first :: rest => joinLoop first first rest
  end.

(** *** [reconcile] *)

Section Reconcile.

(** [ratio.toFixed(2)], the two-decimal rendering of a number; a built-in
    whose digits no property below depends on. *)
Variable toFixed2 : Q -> Str.t.

Definition wordsInWindow (originalWords : list WhisperWord) (clipStart clipEnd : Q)
    : list WhisperWord :=
  filter (fun w => Num.geb (start w) clipStart && Num.leb (end_ w) clipEnd)
         originalWords.

Definition windowText (originalWords : list WhisperWord) (clipStart clipEnd : Q) : Str.t :=
  Str.join (Str.lit " ") (map word (wordsInWindow originalWords clipStart clipEnd)).

(** [maxLength > 0 ? distance / maxLength : 0]. *)
Definition editRatio (cleanedOriginal cleanedCorrection : Str.t) : Q :=
  let distance := levenshtein cleanedOriginal cleanedCorrection in
  let maxLength := Nat.max (List.length cleanedOriginal) (List.length cleanedCorrection) in
  if (0 <? maxLength)%nat then Num.ofNat distance / Num.ofNat maxLength else 0.

(** The first test of the [if] chain: [!cleanedCorrection ||
    cleanedCorrection === '[unintelligible]' || cleanedCorrection.length < 3]. *)
Definition emptyOrUnintelligible (cleanedCorrection : Str.t) : bool :=
  match cleanedCorrection with [] => true | _ :: _ => false end
  || Str.eqb cleanedCorrection (Str.lit "[unintelligible]")
  || (List.length cleanedCorrection <? 3)%nat.

Definition reconcile (originalWords : list WhisperWord) (correctedText : Str.t)
    (clipStart clipEnd : Q) : ReconciliationResult :=
  let originalText := windowText originalWords clipStart clipEnd in
  let cleanedCorrection := cleanText correctedText in
  let cleanedOriginal := cleanText originalText in
  let distance := levenshtein cleanedOriginal cleanedCorrection in
  let ratio := editRatio cleanedOriginal cleanedCorrection in
  let '(shouldApply, reason) :=
    if emptyOrUnintelligible cleanedCorrection
    then (false, Some (Str.lit "Corrected text is empty or unintelligible"))
    else if Num.ltb MAX_LEVENSHTEIN_RATIO ratio
    then (false, Some (Str.lit "Levenshtein ratio too high: " ++ toFixed2 ratio))
    else if Str.eqb cleanedOriginal cleanedCorrection
    then (false, Some (Str.lit "No changes detected"))
    else (true, None) in
  {| success := true;
     originalText := originalText;
     correctedText := cleanedCorrection;
     levenshteinDistance := distance;
     shouldApply := shouldApply;
     reason := reason |}.

End Reconcile.

(** *** [mergeTranscript] *)

(** [[...corrections].sort((a, b) => a.clipStart - b.clipStart)]: the sort is
    stable, so an element goes in front of the first one that is not before
    it, and elements are taken from the last to the first. *)
Fixpoint insertByClipStart (c : Correction.t) (sorted : list Correction.t)
    : list Correction.t :=
  match sorted with
  | [] => [c]
  | d :: rest =>
      if Num.leb (Correction.clipStart c) (Correction.clipStart d)
      then c :: sorted
      else d :: insertByClipStart c rest
  end.

Definition sortByClipStart (corrections : list Correction.t) : list Correction.t :=
  fold_right insertByClipStart [] corrections.

(** The variables of the main loop.  [remaining] stands for [currentIndex]:
    it is [originalWords.slice(currentIndex)]. *)
Record MergeState := mkState {
  mergedWords : list Str.t;
  remaining : list WhisperWord;
  applied : nat;
  skipped : nat
}.

(** First inner [while]: words that end at or before the window are kept. *)
Fixpoint emitBefore (clipStart : Q) (mergedWords : list Str.t)
    (remaining : list WhisperWord) : list Str.t * list WhisperWord :=
  match remaining with
  | [] => (mergedWords, [])
  | w :: rest =>
      if Num.leb (end_ w) clipStart
      then emitBefore clipStart (mergedWords ++ [word w]) rest
      else (mergedWords, remaining)
  end.

(** Second inner [while]: words that start before the window's end are dropped. *)
Fixpoint skipWindow (clipEnd : Q) (remaining : list WhisperWord) : list WhisperWord :=
  match remaining with
  | [] => []
  | w :: rest =>
      if Num.ltb (start w) clipEnd then skipWindow clipEnd rest else remaining
  end.

(** One iteration of [for (const correction of sortedCorrections)]. *)
Definition mergeStep (st : MergeState) (correction : Correction.t) : MergeState :=
  if negb (Correction.shouldApply correction)
  then {| mergedWords := mergedWords st;
          remaining := remaining st;
          applied := applied st;
          skipped := S (skipped st) |}
  else
    let '(kept, rest) :=
      emitBefore (Correction.clipStart correction) (mergedWords st) (remaining st) in
    {| mergedWords := kept ++ [Correction.correctedText correction];
       remaining := skipWindow (Correction.clipEnd correction) rest;
       applied := S (applied st);
       skipped := skipped st |}.

Definition mergeTranscript (originalWords : list WhisperWord)
    (corrections : list Correction.t) : MergedTranscript :=
  match corrections with
  | [] =>
      {| text := Str.join (Str.lit " ") (map word originalWords);
         appliedCorrections := 0;
         skippedCorrections := 0 |}
  | _ :: _ =>
      let sortedCorrections := sortByClipStart corrections in
      let st := fold_left mergeStep sortedCorrections
                  {| mergedWords := []; remaining := originalWords;
                     applied := 0; skipped := 0 |} in
      let mergedWords := mergedWords st ++ map word (remaining st) in
      {| text := joinWords mergedWords;
         appliedCorrections := applied st;
         skippedCorrections := skipped st |}
  end.

End Reconciliation.

(** ** The first steps of [processNextJob] in the worker *)

Module Worker.

(** A row handed to [prisma.segment.createMany]. *)
Record SegmentRow := mkSegment {
  jobId : Str.t;
  segWord : Str.t;
  segStart : Q;
  segEnd : Q;
  confidence : Q
}.

Definition segmentRows (job : Str.t) (ws : list WhisperWord) : list SegmentRow :=
  map (fun w => {| jobId := job; segWord := word w; segStart := start w;
                   segEnd := end_ w; confidence := probability w |}) ws.

(** Steps 1 and 2 once the response is in: the rows saved and the clusters
    handed to the correction loop. *)
Definition firstPass (options : Clustering.ClusteringOptions) (job : Str.t)
    (response : Whisper.WhisperResponse)
    : list SegmentRow * list Clustering.ConfidenceCluster :=
  let ws := Whisper.extractWords response in
  (segmentRows job ws, Clustering.clusterLowConfidenceWords options ws).

End Worker.

(** ** [src/lib/whisper.ts]: confidence helpers *)

Module Confidence.

(** [findLowConfidenceWords(words, threshold = 0.60)]; [None] is the omitted
    argument. *)
Definition findLowConfidenceWords (ws : list WhisperWord) (threshold : option Q)
    : list WhisperWord :=
  let threshold := match threshold with Some t => t | None => 0.60 end in
  filter (fun w => Num.ltb (probability w) threshold) ws.

Definition calculateAverageConfidence (ws : list WhisperWord) : Q :=
  match ws with
  | [] => 1.0
  | _ :: _ =>
      let sum := fold_left (fun acc w => Num.add acc (probability w)) ws 0 in
      Num.div sum (Num.ofNat (List.length ws))
  end.

End Confidence.

(** ** [src/lib/clustering.ts]: [getClusteringStats] *)

Module Stats.

Record t := mk {
  totalWords : nat;
  lowConfidenceWords : nat;
  clustersCreated : nat;
  wordsInClusters : nat;
  averageClusterSize : Q;
  totalCorrectionTime : Q
}.

(** [clusters.reduce((sum, c) => sum + c.words.length, 0)]. *)
Definition wordCount (clusters : list Clustering.ConfidenceCluster) : nat :=
  fold_left (fun sum c => (sum + List.length (Clustering.words c))%nat) clusters 0%nat.

Definition getClusteringStats (options : Clustering.ClusteringOptions)
    (ws : list WhisperWord) (clusters : list Clustering.ConfidenceCluster) : t :=
  let low := Clustering.lowConfidenceWords options ws in
  {| totalWords := List.length ws;
     lowConfidenceWords := List.length low;
     clustersCreated := List.length clusters;
     wordsInClusters := wordCount clusters;
     averageClusterSize :=
       if (0 <? List.length clusters)%nat
       then Num.div (Num.ofNat (wordCount clusters))
                    (Num.ofNat (List.length clusters))
       else 0;
     totalCorrectionTime :=
       fold_left
         (fun sum c =>
            Num.add sum (Num.sub (Clustering.clipEnd c) (Clustering.clipStart c)))
         clusters 0 |}.

End Stats.

(** ** [src/lib/qwen.ts] *)

Module Qwen.

(** The message of a choice and the choice, as far as they are read. *)
Record Message := mkMessage { content : JsField Str.t }.
Record Choice := mkChoice { message : JsField Message }.
Record QwenResponse := mkResponse { choices : list Choice }.

(** [result.choices[0]?.message?.content || '']: a missing link of the chain
    and the empty string both give the empty string. *)
Definition transcriptionOf (result : QwenResponse) : Str.t :=
  match choices result with
  | [] => []
  | first :: _ =>
      match message first with
      | Present m =>
          match content m with
          | Present text => text
          | Absent | Null => []
          end
      | Absent | Null => []
      end
  end.

(** Case folding of a pattern with the [i] flag and without the [u] flag: a
    unit is compared through its upper case, and a unit outside ASCII is never
    folded onto an ASCII one. *)
Definition foldUnit (c : N) : N :=
  if ((97 <=? c) && (c <=? 122))%N then (c - 32)%N else c.

(** The literal [pattern] read at the start of [s]: what follows it. *)
Fixpoint matchLiteral (pattern s : Str.t) : option Str.t :=
  match pattern, s with
  | [], _ => Some s
  | _ :: _, [] => None
  | p :: pattern', c :: s' =>
      if (foldUnit p =? foldUnit c)%N then matchLiteral pattern' s' else None
  end.

(** The first alternative of an anchored pattern that matches. *)
Fixpoint matchAlternatives (alternatives : list Str.t) (s : Str.t) : option Str.t :=
  match alternatives with
  | [] => None
  | a :: rest =>
      match matchLiteral a s with
      | Some after => Some after
      | None => matchAlternatives rest s
      end
  end.

(** [cleaned.replace(preamble, '')] for a preamble [/^(a|b):\s*/i], given by
    its alternatives written out: the match and the white space after it go. *)
Definition removePreamble (cleaned : Str.t) (alternatives : list Str.t) : Str.t :=
  match matchAlternatives alternatives cleaned with
  | Some after => Str.dropWhile Str.isSpace after
  | None => cleaned
  end.

Definition preambles : list (list Str.t) :=
  [ [Str.lit "The speaker said:"; Str.lit "The speaker says:"];
    [Str.lit "The audio says:"; Str.lit "The audio contains:"];
    [Str.lit "Transcription:"];
    [Str.lit "Here is the transcription:"] ].

Definition cleanTranscription (text : Str.t) : Str.t :=
  let cleaned := Str.trim text in
  let cleaned := fold_left removePreamble preambles cleaned in
  Str.trim cleaned.

End Qwen.

(** ** [src/lib/auth.ts]: the two validators *)

Module Auth.

(** The class [[^\s@]]. *)
Definition addressUnit (c : N) : bool := negb (Str.isSpace c) && negb (c =? 64)%N.

(** [[^\s@]+] followed by what [next] accepts: one unit of the class, then
    either [next] or more of the class. *)
Fixpoint someThen (next : Str.t -> bool) (s : Str.t) : bool :=
  match s with
  | [] => false
  | c :: r => addressUnit c && (next r || someThen next r)
  end.

(** A literal unit followed by what [next] accepts. *)
Definition unitThen (u : N) (next : Str.t -> bool) (s : Str.t) : bool :=
  match s with
  | c :: r => (c =? u)%N && next r
  | [] => false
  end.

Definition atEnd (s : Str.t) : bool :=
  match s with [] => true | _ :: _ => false end.

(** [/^[^\s@]+@[^\s@]+\.[^\s@]+$/.test(email)]. *)
Definition isValidEmail (email : Str.t) : bool :=
  someThen (unitThen 64 (someThen (unitThen 46 (someThen atEnd)))) email.

Record PasswordCheck := mkCheck {
  valid : bool;
  message : option Str.t
}.

Definition isLower (c : N) : bool := ((97 <=? c) && (c <=? 122))%N.
Definition isUpper (c : N) : bool := ((65 <=? c) && (c <=? 90))%N.
Definition isDigit (c : N) : bool := ((48 <=? c) && (c <=? 57))%N.

Definition isValidPassword (password : Str.t) : PasswordCheck :=
  if (List.length password <? 8)%nat
  then mkCheck false (Some (Str.lit "Password must be at least 8 characters long"))
  else if negb (existsb isLower password)
  then mkCheck false
         (Some (Str.lit "Password must contain at least one lowercase letter"))
  else if negb (existsb isUpper password)
  then mkCheck false
         (Some (Str.lit "Password must contain at least one uppercase letter"))
  else if negb (existsb isDigit password)
  then mkCheck false (Some (Str.lit "Password must contain at least one number"))
  else mkCheck true None.

End Auth.

(** ** The correction loop of [processNextJob] *)

Module Pipeline.

Import Reconciliation.

Section Job.

Variable toFixed2 : Q -> Str.t.

(** What slicing the clip and asking the second pass give for a cluster:
    the candidate text, or [None] when either of them throws. *)
Variable secondPass : Clustering.ConfidenceCluster -> option Str.t.

(** The object pushed on [corrections] for a cluster and its candidate. *)
Definition correctionFor (ws : list WhisperWord) (cluster : Clustering.ConfidenceCluster)
    (candidate : Str.t) : Correction.t :=
  let reconciliation :=
    reconcile toFixed2 ws candidate
      (Clustering.clipStart cluster) (Clustering.clipEnd cluster) in
  {| Correction.clipStart := Clustering.clipStart cluster;
     Correction.clipEnd := Clustering.clipEnd cluster;
     Correction.correctedText := correctedText reconciliation;
     Correction.shouldApply := shouldApply reconciliation |}.

(** The [for] loop over the clusters: a cluster whose second pass throws is
    caught and left out, the others push their correction in turn. *)
Fixpoint collectCorrections (corrections : list Correction.t)
    (ws : list WhisperWord) (clusters : list Clustering.ConfidenceCluster)
    : list Correction.t :=
  match clusters with
  | [] => corrections
  | cluster :: rest =>
      match secondPass cluster with
      | Some candidate =>
          collectCorrections (corrections ++ [correctionFor ws cluster candidate]) ws rest
      | None => collectCorrections corrections ws rest
      end
  end.

(** Steps 2 to 6 on the words of the first pass: the merged transcript. *)
Definition transcribe (options : Clustering.ClusteringOptions)
    (ws : list WhisperWord) : MergedTranscript :=
  let clusters := Clustering.clusterLowConfidenceWords options ws in
  let corrections := collectCorrections [] ws clusters in
  mergeTranscript ws corrections.

End Job.

End Pipeline.

(** ** Vocabulary of the properties *)

Module Props.

Import Clustering.

(** The reference cleaning of the specification, in the order it gives:
    lower-case, strip what is neither word nor space, collapse white space,
    trim. *)
Definition cleanReference (s : Str.t) : Str.t :=
  Str.trim
    (Str.collapseWhitespace
       (Str.stripNonWordNonSpace
          (Str.toLowerCase s))).

(** Every unit of [s] is white space. *)
Definition allSpace (s : Str.t) : Prop := Forall (fun c => Str.isSpace c = true) s.

(** The first or the last unit of [s] is white space. *)
Definition edgeWhitespace (s : Str.t) : Prop :=
  (exists c r, s = c :: r /\ Str.isSpace c = true) \/
  (exists c r, s = r ++ [c] /\ Str.isSpace c = true).

(** Every word is followed by one that starts more than [p] after its end,
    the difference being the one the source computes. *)
Fixpoint gapsExceed (p : Q) (ws : list WhisperWord) : Prop :=
  match ws with
  | a :: ((b :: _) as rest) =>
      p < Num.sub (start b) (end_ a) /\ gapsExceed p rest
  | _ => True
  end.

(** Every window ends before the next one starts. *)
Fixpoint windowsApart (cs : list ConfidenceCluster) : Prop :=
  match cs with
  | a :: ((b :: _) as rest) => clipEnd a < clipStart b /\ windowsApart rest
  | _ => True
  end.

(** The words are in the order of their start times. *)
Definition startsBefore (a b : WhisperWord) : Prop := start a <= start b.
Definition orderedByStart (ws : list WhisperWord) : Prop := Sorted startsBefore ws.

(** A word has a start that is not negative and lies before its end. *)
Definition wellTimed (w : WhisperWord) : Prop := 0 <= start w /\ start w < end_ w.


(** The [rawClusters] array without the accumulator: the chunk being filled
    and the chunks that follow it. *)
Fixpoint chunks (options : ClusteringOptions) (current : list WhisperWord)
    (rest : list WhisperWord) : list (list WhisperWord) :=
  match rest with
  | [] => [current]
  | w :: rest' =>
      if Num.leb (Num.sub (start w) (end_ (last current noWord)))
                 (proximityThreshold options)
      then chunks options (current ++ [w]) rest'
      else current :: chunks options [w] rest'
  end.

(** The [merged] array without the accumulator. *)
Fixpoint mergeRun (current : ConfidenceCluster) (rest : list ConfidenceCluster)
    : list ConfidenceCluster :=
  match rest with
  | [] => [current]
  | next :: rest' =>
      if Num.geb (clipEnd current) (clipStart next)
      then mergeRun (mergePair current next) rest'
      else current :: mergeRun next rest'
  end.

(** Span of a chunk: start of its first word, end of its last. *)
Definition chunkStart (g : list WhisperWord) : Q := start (hd noWord g).
Definition chunkEnd (g : list WhisperWord) : Q := end_ (last g noWord).

(** A chunk that [annotate] can read: it has a word, its words are in the
    order of their starts, and each of them is well timed. *)
Definition readable (g : list WhisperWord) : Prop :=
  g <> [] /\ StronglySorted startsBefore g /\ Forall wellTimed g.

(** A chunk ends before the next one starts. *)
Definition chunkBefore (g h : list WhisperWord) : Prop := chunkEnd g < chunkStart h.

(** A window that ends no earlier than it starts; two windows in the order
    of their starts; a window that ends before the next one starts. *)
Definition closedWindow (c : ConfidenceCluster) : Prop := clipStart c <= clipEnd c.
Definition windowNotAfter (a b : ConfidenceCluster) : Prop := clipStart a <= clipStart b.
Definition windowBefore (a b : ConfidenceCluster) : Prop := clipEnd a < clipStart b.


(** A whole number of units that binary64 holds: a significand below [2^53]
    times a power of two. *)
Definition representable (z : Z) : Prop :=
  exists m j, (z = m * 2 ^ j /\ 0 <= m < 2 ^ 53 /\ 0 <= j)%Z.

(** A number that rounding leaves as it is: a binary64 number. *)
Definition isDouble (x : Q) : Prop := Num.round x == x.



(** Every correction of the list has [shouldApply = false]. *)
Definition rejectedOnly (cs : list Reconciliation.Correction.t) : Prop :=
  Forall (fun c => Reconciliation.Correction.shouldApply c = false) cs.

(** The tokens [joinLoop] appends when no word is punctuation. *)
Fixpoint spaced (ws : list Str.t) : Str.t :=
  match ws with
  | [] => []
  | w :: rest => Str.lit " " ++ w ++ spaced rest
  end.

End Props.

(** ** Inputs of the concrete scenarios *)

Module Scenario.

Import Reconciliation.

(** The word list and the correction of the merge scenario. *)
Definition helloMumblyWorld : list WhisperWord :=
  [mkWord (Str.lit "Hello") 0 0.5 0.95;
   mkWord (Str.lit "mumbly") 0.5 1.0 0.45;
   mkWord (Str.lit "world") 1.0 1.5 0.95].

Definition beautiful : Correction.t :=
  Correction.mk 0.3 1.2 (Str.lit "beautiful") true.

(** The words of the hallucination test and its candidate. *)
Definition theRedFox : list WhisperWord :=
  [mkWord (Str.lit "The") 0 0.3 0.95;
   mkWord (Str.lit "red") 0.3 0.6 0.45;
   mkWord (Str.lit "fox") 0.6 1.0 0.90].

Definition unrelated : Str.t :=
  Str.lit "Completely different sentence with no relation".

(** Two words, the second one a comma, and one rejected correction. *)
Definition helloComma : list WhisperWord :=
  [mkWord (Str.lit "Hello") 0 0.5 0.95;
   mkWord (Str.lit ",") 0.5 0.6 0.95].

Definition rejected : Correction.t :=
  Correction.mk 0 1.0 (Str.lit "bad correction") false.

(** The words of the test on distant low-confidence words. *)
Definition distantPair : list WhisperWord :=
  [mkWord (Str.lit "mumbly1") 0 0.5 0.45;
   mkWord (Str.lit "clear") 1.0 1.5 0.95;
   mkWord (Str.lit "mumbly2") 10.0 10.5 0.40].

(** Two low-confidence words whose windows stay apart. *)
Definition farPair : list WhisperWord :=
  [mkWord (Str.lit "mumbly1") 0 0.5 0.45;
   mkWord (Str.lit "mumbly2") 40.0 40.5 0.40].

(** A formatter to run [reconcile] with. *)
Definition noDigits (ratio : Q) : Str.t := [].





(** A candidate that differs from the words in the window by a leading
    hyphen and a space. *)
Definition helloWorld : list WhisperWord :=
  [mkWord (Str.lit "hello") 0 0.5 0.45;
   mkWord (Str.lit "world") 0.5 1.0 0.95].

Definition hyphenated : Str.t := Str.lit "- hello world".

End Scenario.

(** ** Vocabulary of the further properties *)

Module Shape.

Import Clustering.

(** Each word of the list starts at most [p] after the end of the one
    before, the difference being the one the source computes. *)
Fixpoint withinProximity (p : Q) (ws : list WhisperWord) : Prop :=
  match ws with
  | a :: ((b :: _) as rest) =>
      Num.sub (start b) (end_ a) <= p /\ withinProximity p rest
  | _ => True
  end.

(** The chunk [h] starts more than [p] after the end of the chunk [g]. *)
Definition farApart (p : Q) (g h : list WhisperWord) : Prop :=
  p < Num.sub (Props.chunkStart h) (Props.chunkEnd g).


(** A unit that [cleanText] can leave: [a-z], [0-9], the underscore, the space. *)
Definition cleanUnit (c : N) : bool :=
  ((97 <=? c) && (c <=? 122) || (48 <=? c) && (c <=? 57) || (c =? 95) || (c =? 32))%N.

(** What the strip step leaves after lower-casing: a unit of [\w] that is
    not an upper-case letter, or white space. *)
Definition stripped (c : N) : Prop :=
  (Str.isWordChar c = true /\ Auth.isUpper c = false) \/ Str.isSpace c = true.

(** No two neighbours of [s] are both the space. *)
Fixpoint singleSpaced (s : Str.t) : Prop :=
  match s with
  | a :: ((b :: _) as rest) => ~ (a = 32%N /\ b = 32%N) /\ singleSpaced rest
  | _ => True
  end.

(** [l] keeps some of the elements of [m], in their order. *)
Inductive Subsequence {A : Type} : list A -> list A -> Prop :=
| sub_nil : Subsequence [] []
| sub_skip : forall x l m, Subsequence l m -> Subsequence l (x :: m)
| sub_keep : forall x l m, Subsequence l m -> Subsequence (x :: l) (x :: m).

(** [m] is made of the elements of [l1] and of [l2], each list in its order. *)
Inductive Interleaved {A : Type} : list A -> list A -> list A -> Prop :=
| il_nil : Interleaved [] [] []
| il_left : forall x l1 l2 m, Interleaved l1 l2 m -> Interleaved (x :: l1) l2 (x :: m)
| il_right : forall x l1 l2 m, Interleaved l1 l2 m -> Interleaved l1 (x :: l2) (x :: m).

(** The [mergedWords] array that [mergeTranscript] hands to [joinWords]. *)
Definition mergedTokens (originalWords : list WhisperWord)
    (corrections : list Reconciliation.Correction.t) : list Str.t :=
  let st := fold_left Reconciliation.mergeStep
              (Reconciliation.sortByClipStart corrections)
              {| Reconciliation.mergedWords := [];
                 Reconciliation.remaining := originalWords;
                 Reconciliation.applied := 0; Reconciliation.skipped := 0 |} in
  Reconciliation.mergedWords st ++ map word (Reconciliation.remaining st).

(** The corrections that are applied, in the order of the list. *)
Definition accepted (corrections : list Reconciliation.Correction.t)
    : list Reconciliation.Correction.t :=
  filter Reconciliation.Correction.shouldApply corrections.

(** The corrections are in the order of their window starts. *)
Definition ascending (corrections : list Reconciliation.Correction.t) : Prop :=
  StronglySorted
    (fun a b => Reconciliation.Correction.clipStart a <=
                Reconciliation.Correction.clipStart b) corrections.

(** The shape [local@domain.tld] that the address pattern describes. *)
Definition addressShape (email : Str.t) : Prop :=
  exists localPart domain tld,
    email = localPart ++ [64%N] ++ domain ++ [46%N] ++ tld /\
    localPart <> [] /\ domain <> [] /\ tld <> [] /\
    forallb Auth.addressUnit localPart = true /\
    forallb Auth.addressUnit domain = true /\
    forallb Auth.addressUnit tld = true.

End Shape.

(** Inputs of the further witnesses. *)

Module Sample.

Definition oneLow : list WhisperWord :=
  [mkWord (Str.lit "clear") 0 0.5 0.95;
   mkWord (Str.lit "mumbly") 30.0 30.5 0.45].

Definition window (a b : Q) : Clustering.ConfidenceCluster :=
  Clustering.mkCluster (Str.lit "cluster_0")
    [mkWord (Str.lit "mumbly") a b 0.5] ((a + b) / 2) a b 0.5 a b.

Definition answers (text : string) (c : Clustering.ConfidenceCluster) : option Str.t :=
  Some (Str.lit text).

End Sample.

(** * Properties *)

(** ** Numbers and strings *)

Section NumFacts.

Lemma ltb_lt a b : Num.ltb a b = true <-> a < b.
Proof.
  unfold Num.ltb. rewrite negb_true_iff. split; intro H.
  - apply Qnot_le_lt. intro L. apply Qle_bool_iff in L. congruence.
  - destruct (Qle_bool b a) eqn:E; trivial.
    apply Qle_bool_iff in E. exfalso. exact (Qlt_not_le _ _ H E).
Qed.

Lemma ltb_ge a b : Num.ltb a b = false <-> b <= a.
Proof.
  unfold Num.ltb. rewrite negb_false_iff. apply Qle_bool_iff.
Qed.

Lemma leb_le a b : Num.leb a b = true <-> a <= b.
Proof. apply Qle_bool_iff. Qed.

Lemma leb_gt a b : Num.leb a b = false <-> b < a.
Proof.
  unfold Num.leb. split; intro H.
  - apply Qnot_le_lt. intro L. apply Qle_bool_iff in L. congruence.
  - destruct (Qle_bool a b) eqn:E; trivial.
    apply Qle_bool_iff in E. exfalso. exact (Qlt_not_le _ _ H E).
Qed.

Lemma geb_ge a b : Num.geb a b = true <-> b <= a.
Proof. apply Qle_bool_iff. Qed.

Lemma geb_lt a b : Num.geb a b = false <-> a < b.
Proof. unfold Num.geb. apply (leb_gt b a). Qed.

Lemma ofNat_pos n : (0 < n)%nat -> 0 < Num.ofNat n.
Proof.
  intro H. unfold Num.ofNat, Qlt. simpl. lia.
Qed.

Lemma ofNat_add n m : Num.ofNat (n + m) == Num.ofNat n + Num.ofNat m.
Proof.
  unfold Num.ofNat. rewrite Nat2Z.inj_add, inject_Z_plus. reflexivity.
Qed.

Lemma ofNat_S n : Num.ofNat (S n) == 1 + Num.ofNat n.
Proof. exact (ofNat_add 1 n). Qed.

End NumFacts.

(** ** Numbers: the rounding of binary64 *)

Section Rounding.

Import Props.

Lemma rne_comp m m' : m == m' -> Num.rne m = Num.rne m'.
Proof.
  intro H. unfold Num.rne. rewrite (Qfloor_comp m m' H).
  assert (E : Qcompare (m - inject_Z (Qfloor m')) (1 # 2)
              = Qcompare (m' - inject_Z (Qfloor m')) (1 # 2))
    by (rewrite H; reflexivity).
  rewrite E. reflexivity.
Qed.

Lemma rne_near m :
  inject_Z (Num.rne m) - (1 # 2) <= m /\ m <= inject_Z (Num.rne m) + (1 # 2).
Proof.
  unfold Num.rne.
  pose proof (Qfloor_le m) as L. pose proof (Qlt_floor m) as R.
  rewrite inject_Z_plus in R. change (inject_Z 1) with 1 in R.
  destruct (Qcompare (m - inject_Z (Qfloor m)) (1 # 2)) eqn:C.
  - apply Qeq_alt in C.
    destruct (Z.even (Qfloor m)); rewrite ?inject_Z_plus;
      change (inject_Z 1) with 1; split; lra.
  - apply Qlt_alt in C. split; lra.
  - apply Qgt_alt in C. rewrite inject_Z_plus. change (inject_Z 1) with 1.
    split; lra.
Qed.

Lemma rne_mono m m' : m <= m' -> (Num.rne m <= Num.rne m')%Z.
Proof.
  intro H. destruct (Z.le_gt_cases (Num.rne m) (Num.rne m')) as [|G]; trivial.
  exfalso.
  assert (G' : inject_Z (Num.rne m') + 1 <= inject_Z (Num.rne m)).
  { change 1 with (inject_Z 1). rewrite <- inject_Z_plus, <- Zle_Qle. lia. }
  destruct (rne_near m) as [A _]. destruct (rne_near m') as [_ B].
  assert (E : m == m') by lra.
  apply rne_comp in E. lia.
Qed.

Lemma rne_Z z : Num.rne (inject_Z z) = z.
Proof.
  unfold Num.rne. rewrite Qfloor_Z.
  assert (C : Qcompare (inject_Z z - inject_Z z) (1 # 2) = Lt)
    by (apply Qlt_alt; setoid_replace (inject_Z z - inject_Z z) with 0 by ring;
        reflexivity).
  now rewrite C.
Qed.

Lemma rne_ge z m : inject_Z z <= m -> (z <= Num.rne m)%Z.
Proof. intro H. rewrite <- (rne_Z z). now apply rne_mono. Qed.

Lemma rne_le z m : m <= inject_Z z -> (Num.rne m <= z)%Z.
Proof. intro H. rewrite <- (rne_Z z). now apply rne_mono. Qed.

Lemma spacingExponent_nonneg a : (0 <= Num.spacingExponent a)%Z.
Proof. unfold Num.spacingExponent. lia. Qed.

Lemma spacing_pos a : (0 < Num.spacing a)%Z.
Proof. unfold Num.spacing. apply Z.pow_pos_nonneg; [lia | apply spacingExponent_nonneg]. Qed.

Lemma spacingExponent_mono a b :
  a <= b -> (Num.spacingExponent a <= Num.spacingExponent b)%Z.
Proof.
  intro H. unfold Num.spacingExponent.
  pose proof (Z.log2_le_mono _ _ (Qfloor_resp_le _ _ H)). lia.
Qed.

(** Dividing by the spacing and comparing with an integer. *)
Lemma div_spacing_le a s c :
  (0 < s)%Z -> a <= inject_Z (c * s) -> a / inject_Z s <= inject_Z c.
Proof.
  intros Hs H. apply Qle_shift_div_r.
  - change 0 with (inject_Z 0). now rewrite <- Zlt_Qlt.
  - now rewrite <- inject_Z_mult.
Qed.

Lemma div_spacing_ge a s c :
  (0 < s)%Z -> inject_Z (c * s) <= a -> inject_Z c <= a / inject_Z s.
Proof.
  intros Hs H. apply Qle_shift_div_l.
  - change 0 with (inject_Z 0). now rewrite <- Zlt_Qlt.
  - now rewrite <- inject_Z_mult.
Qed.

Lemma floor_lt_pow2 a L :
  (0 <= L)%Z -> (Z.log2 (Qfloor a) < L)%Z -> a <= inject_Z (2 ^ L).
Proof.
  intros HL H.
  assert (F : (Qfloor a + 1 <= 2 ^ L)%Z).
  { destruct (Z.le_gt_cases (Qfloor a) 0) as [N|P].
    - pose proof (Z.pow_pos_nonneg 2 L ltac:(lia) HL). lia.
    - apply Z.log2_lt_pow2 in H; lia. }
  apply Qlt_le_weak. eapply Qlt_le_trans; [apply Qlt_floor|].
  now rewrite <- Zle_Qle.
Qed.

Lemma roundUnits_le_pow2 a L :
  (Num.spacingExponent a <= L)%Z -> (Z.log2 (Qfloor a) < L)%Z ->
  (Num.roundUnits a <= 2 ^ L)%Z.
Proof.
  intros Hk Hl. unfold Num.roundUnits, Num.spacing.
  pose proof (spacingExponent_nonneg a) as K0.
  set (k := Num.spacingExponent a) in *.
  replace (2 ^ L)%Z with (2 ^ (L - k) * 2 ^ k)%Z
    by (rewrite <- Z.pow_add_r by lia; f_equal; lia).
  apply Z.mul_le_mono_nonneg_r; [apply Z.pow_nonneg; lia|].
  apply rne_le, div_spacing_le; [apply Z.pow_pos_nonneg; lia|].
  rewrite <- Z.pow_add_r by lia. replace (L - k + k)%Z with L by lia.
  apply floor_lt_pow2; lia.
Qed.

Lemma roundUnits_ge_pow2 b :
  (0 < Z.log2 (Qfloor b) - 52)%Z ->
  (2 ^ Z.log2 (Qfloor b) <= Num.roundUnits b)%Z.
Proof.
  intro H. unfold Num.roundUnits, Num.spacing, Num.spacingExponent.
  set (L := Z.log2 (Qfloor b)) in *.
  rewrite Z.max_l by lia.
  replace (2 ^ L)%Z with (2 ^ 52 * 2 ^ (L - 52))%Z at 1
    by (rewrite <- Z.pow_add_r by lia; f_equal; lia).
  apply Z.mul_le_mono_nonneg_r; [apply Z.pow_nonneg; lia|].
  apply rne_ge, div_spacing_ge; [apply Z.pow_pos_nonneg; lia|].
  rewrite <- Z.pow_add_r by lia. replace (52 + (L - 52))%Z with L by lia.
  assert (P : (0 < Qfloor b)%Z).
  { destruct (Z.le_gt_cases (Qfloor b) 0) as [N|P]; trivial.
    pose proof (Z.log2_nonpos _ N). lia. }
  eapply Qle_trans; [|apply Qfloor_le].
  rewrite <- Zle_Qle. apply Z.log2_spec, P.
Qed.

Lemma roundUnits_mono a b : a <= b -> (Num.roundUnits a <= Num.roundUnits b)%Z.
Proof.
  intro H. pose proof (spacingExponent_mono a b H) as Hk.
  destruct (Z.eq_dec (Num.spacingExponent a) (Num.spacingExponent b)) as [E|N].
  - unfold Num.roundUnits, Num.spacing. rewrite E.
    apply Z.mul_le_mono_nonneg_r; [apply Z.pow_nonneg; lia|].
    apply rne_mono.
    assert (P : 0 < inject_Z (2 ^ Num.spacingExponent b)).
    { change 0 with (inject_Z 0). rewrite <- Zlt_Qlt.
      apply Z.pow_pos_nonneg; [lia | apply spacingExponent_nonneg]. }
    unfold Qdiv. apply Qmult_le_compat_r; [exact H|].
    apply Qlt_le_weak, Qinv_lt_0_compat, P.
  - assert (Hb : (0 < Z.log2 (Qfloor b) - 52)%Z).
    { pose proof (spacingExponent_nonneg a).
      unfold Num.spacingExponent in *. lia. }
    eapply Z.le_trans; [|apply roundUnits_ge_pow2, Hb].
    apply roundUnits_le_pow2; unfold Num.spacingExponent in *; lia.
Qed.

Lemma roundUnits_comp a b : a == b -> Num.roundUnits a = Num.roundUnits b.
Proof.
  intro H. unfold Num.roundUnits, Num.spacing, Num.spacingExponent.
  rewrite (Qfloor_comp a b H). f_equal. apply rne_comp. now rewrite H.
Qed.

Lemma roundUnits_nonneg a : 0 <= a -> (0 <= Num.roundUnits a)%Z.
Proof.
  intro H. unfold Num.roundUnits. pose proof (spacing_pos a) as P.
  apply Z.mul_nonneg_nonneg; [|lia].
  apply rne_ge, div_spacing_ge; [exact P|]. exact H.
Qed.

Lemma unitsPerOne_pos : 0 < inject_Z Num.unitsPerOne.
Proof. reflexivity. Qed.

Lemma roundMagnitude_comp a b : a == b -> Num.roundMagnitude a == Num.roundMagnitude b.
Proof.
  intro H. unfold Num.roundMagnitude.
  rewrite (roundUnits_comp (a * inject_Z Num.unitsPerOne) (b * inject_Z Num.unitsPerOne));
    [reflexivity | now rewrite H].
Qed.

Lemma roundMagnitude_mono a b : a <= b -> Num.roundMagnitude a <= Num.roundMagnitude b.
Proof.
  intro H. unfold Num.roundMagnitude, Qdiv.
  apply Qmult_le_compat_r.
  - rewrite <- Zle_Qle. apply roundUnits_mono.
    apply Qmult_le_compat_r; [exact H | apply Qlt_le_weak, unitsPerOne_pos].
  - apply Qlt_le_weak, Qinv_lt_0_compat, unitsPerOne_pos.
Qed.

Lemma roundMagnitude_nonneg a : 0 <= a -> 0 <= Num.roundMagnitude a.
Proof.
  intro H. unfold Num.roundMagnitude.
  apply Qle_shift_div_l; [apply unitsPerOne_pos|]. rewrite Qmult_0_l.
  change 0 with (inject_Z 0). rewrite <- Zle_Qle. apply roundUnits_nonneg.
  apply Qmult_le_0_compat; [exact H | apply Qlt_le_weak, unitsPerOne_pos].
Qed.

Lemma round_unfold x :
  Num.round x == if Qle_bool 0 x then Num.roundMagnitude x
                 else - Num.roundMagnitude (- x).
Proof. unfold Num.round. apply Qred_correct. Qed.

Lemma round_nonneg_eq x : 0 <= x -> Num.round x == Num.roundMagnitude x.
Proof.
  intro H. rewrite round_unfold. apply Qle_bool_iff in H. now rewrite H.
Qed.

Lemma round_neg_eq x : x < 0 -> Num.round x == - Num.roundMagnitude (- x).
Proof.
  intro H. rewrite round_unfold.
  destruct (Qle_bool 0 x) eqn:E; [|reflexivity].
  apply Qle_bool_iff in E. lra.
Qed.

Lemma round_comp x y : x == y -> Num.round x == Num.round y.
Proof.
  intro H. rewrite !round_unfold.
  assert (E : Qle_bool 0 x = Qle_bool 0 y) by (rewrite H; reflexivity).
  rewrite E. destruct (Qle_bool 0 y).
  - now apply roundMagnitude_comp.
  - apply Qopp_comp, roundMagnitude_comp. now rewrite H.
Qed.

Lemma round_mono x y : x <= y -> Num.round x <= Num.round y.
Proof.
  intro H. destruct (Qlt_le_dec x 0) as [Nx|Px].
  - rewrite (round_neg_eq x Nx). destruct (Qlt_le_dec y 0) as [Ny|Py].
    + rewrite (round_neg_eq y Ny).
      apply Qopp_le_compat, roundMagnitude_mono. lra.
    + rewrite (round_nonneg_eq y Py).
      pose proof (roundMagnitude_nonneg (- x) ltac:(lra)).
      pose proof (roundMagnitude_nonneg y Py). lra.
  - rewrite (round_nonneg_eq x Px), (round_nonneg_eq y ltac:(lra)).
    now apply roundMagnitude_mono.
Qed.

Lemma round_0 : Num.round 0 == 0.
Proof. reflexivity. Qed.

Lemma round_nonneg x : 0 <= x -> 0 <= Num.round x.
Proof. intro H. rewrite <- round_0. now apply round_mono. Qed.

Lemma round_nonpos x : x <= 0 -> Num.round x <= 0.
Proof. intro H. rewrite <- round_0. now apply round_mono. Qed.

Lemma representable_0 : representable 0.
Proof. exists 0%Z, 0%Z. repeat split; lia. Qed.


Lemma roundUnits_representable z :
  representable z -> Num.roundUnits (inject_Z z) = z.
Proof.
  intros (m & j & -> & Hm & Hj).
  unfold Num.roundUnits, Num.spacing, Num.spacingExponent. rewrite Qfloor_Z.
  assert (Hk : (Z.max (Z.log2 (m * 2 ^ j) - 52) 0 <= j)%Z).
  { destruct (Z.eq_dec m 0) as [->|N]; [simpl; lia|].
    rewrite Z.log2_mul_pow2 by lia.
    assert (Z.log2 m < 53)%Z by (apply Z.log2_lt_pow2; lia). lia. }
  set (k := Z.max (Z.log2 (m * 2 ^ j) - 52) 0) in *.
  assert (K0 : (0 <= k)%Z) by (subst k; lia).
  assert (E : (m * 2 ^ j = m * 2 ^ (j - k) * 2 ^ k)%Z).
  { rewrite <- Z.mul_assoc, <- Z.pow_add_r by lia. do 2 f_equal. lia. }
  rewrite (rne_comp _ (inject_Z (m * 2 ^ (j - k)))).
  - rewrite rne_Z. now rewrite <- E.
  - rewrite E at 1. rewrite inject_Z_mult. field.
    intro Z0. assert (P : 0 < inject_Z (2 ^ k)).
    { change 0 with (inject_Z 0). rewrite <- Zlt_Qlt.
      apply Z.pow_pos_nonneg; lia. }
    rewrite Z0 in P. discriminate P.
Qed.


Lemma isDouble_units z :
  representable z ->
  isDouble (inject_Z z / inject_Z Num.unitsPerOne) /\
  isDouble (- (inject_Z z / inject_Z Num.unitsPerOne)).
Proof.
  intro Hz. pose proof unitsPerOne_pos as U.
  assert (Z0 : (0 <= z)%Z).
  { destruct Hz as (m & j & -> & Hm & Hj).
    apply Z.mul_nonneg_nonneg; [lia | apply Z.pow_nonneg; lia]. }
  assert (Q0 : 0 <= inject_Z z / inject_Z Num.unitsPerOne).
  { apply Qle_shift_div_l; [exact U|]. rewrite Qmult_0_l.
    change 0 with (inject_Z 0). now rewrite <- Zle_Qle. }
  assert (M : Num.roundMagnitude (inject_Z z / inject_Z Num.unitsPerOne)
              == inject_Z z / inject_Z Num.unitsPerOne).
  { unfold Num.roundMagnitude.
    rewrite (roundUnits_comp _ (inject_Z z)).
    - now rewrite roundUnits_representable.
    - field. intro E. rewrite E in U. discriminate U. }
  unfold isDouble. split.
  - now rewrite (round_nonneg_eq _ Q0).
  - destruct (Qlt_le_dec (- (inject_Z z / inject_Z Num.unitsPerOne)) 0) as [N|P].
    + rewrite (round_neg_eq _ N).
      rewrite (roundMagnitude_comp _ (inject_Z z / inject_Z Num.unitsPerOne))
        by ring.
      now rewrite M.
    + assert (E : - (inject_Z z / inject_Z Num.unitsPerOne) == 0) by lra.
      rewrite (round_comp _ 0 E). rewrite E. reflexivity.
Qed.





Lemma isDouble_nat n : (Z.of_nat n <= 2 ^ 53)%Z -> isDouble (inject_Z (Z.of_nat n)).
Proof.
  intro H.
  assert (R : representable (Z.of_nat n * Num.unitsPerOne)).
  { destruct (Z.eq_dec (Z.of_nat n) (2 ^ 53)) as [E|NE].
    - exists (2 ^ 52)%Z, 1075%Z. rewrite E. repeat split; lia.
    - exists (Z.of_nat n), 1074%Z. repeat split; lia. }
  destruct (isDouble_units _ R) as [D _]. unfold isDouble in *.
  pose proof unitsPerOne_pos as U.
  assert (X : inject_Z (Z.of_nat n) ==
              inject_Z (Z.of_nat n * Num.unitsPerOne) / inject_Z Num.unitsPerOne).
  { rewrite inject_Z_mult. field. intro Z0. rewrite Z0 in U. discriminate U. }
  rewrite (round_comp _ _ X), D. symmetry. exact X.
Qed.

End Rounding.

Section StrFacts.

Lemma eqb_eq a b : Str.eqb a b = true <-> a = b.
Proof.
  unfold Str.eqb. destruct (list_eq_dec N.eq_dec a b); split; congruence.
Qed.

Lemma startsWith_app p r : Str.startsWith p (p ++ r) = true.
Proof.
  induction p as [|a p IH]; simpl; trivial.
  now rewrite N.eqb_refl, IH.
Qed.

Lemma includes_prefix p r : Str.includes p (p ++ r) = true.
Proof.
  assert (U : forall n h, Str.includes n h =
            Str.startsWith n h ||
            match h with [] => false | _ :: t => Str.includes n t end)
    by (intros n h; destruct h; reflexivity).
  rewrite U, startsWith_app. reflexivity.
Qed.

End StrFacts.

(** ** Word extraction *)

Section Extraction.

Import Whisper.

(** C10. When the [words] property of the response is absent or null,
    [extractWords] returns the empty list instead of failing, and the worker
    then saves no segment row and obtains no cluster. *)
Theorem extractWords_missing_is_empty :
  forall (options : Clustering.ClusteringOptions) (job : Str.t)
         (response : WhisperResponse),
    words response = Absent \/ words response = Null ->
    extractWords response = [] /\
    Worker.firstPass options job response = ([], []).
Proof.
  intros options job response H.
  assert (E : extractWords response = []).
  { unfold extractWords. destruct H as [-> | ->]; reflexivity. }
  split; [exact E|].
  unfold Worker.firstPass. rewrite E. reflexivity.
Qed.

(** A response whose [words] is null. *)
Lemma extractWords_missing_is_empty_witness :
  Whisper.extractWords (mkResponse (Str.lit "") Null (Str.lit "en") 0) = [] /\
  Worker.firstPass Clustering.defaults (Str.lit "job-1")
    (mkResponse (Str.lit "") Null (Str.lit "en") 0) = ([], []).
Proof.
  apply (extractWords_missing_is_empty Clustering.defaults (Str.lit "job-1")
           (mkResponse (Str.lit "") Null (Str.lit "en") 0)).
  right. reflexivity.
Defined.

Lemma extractWords_present ws t l d :
  extractWords (mkResponse t (Present ws) l d) = ws.
Proof. reflexivity. Qed.

End Extraction.

(** ** Reconciliation: concrete scenarios *)

Section Scenarios.

Import Reconciliation Scenario.

(** C1, as stated, fails: the merged text is not "beautiful world". *)
Lemma merge_scenario_not_beautiful_world :
  ~ (text (mergeTranscript helloMumblyWorld [beautiful]) = Str.lit "beautiful world"
     /\ appliedCorrections (mergeTranscript helloMumblyWorld [beautiful]) = 1%nat).
Proof.
  intros [H _]. vm_compute in H. discriminate H.
Qed.

(** C1, amended. For the three words Hello, mumbly, world and the single
    accepted correction over [0.3, 1.2], [mergeTranscript] returns the text
    "beautiful" with one applied correction: "world" starts at 1.0, before
    the window's end 1.2, so the second loop drops it with the other two. *)
Theorem merge_scenario_beautiful :
  text (mergeTranscript helloMumblyWorld [beautiful]) = Str.lit "beautiful" /\
  appliedCorrections (mergeTranscript helloMumblyWorld [beautiful]) = 1%nat /\
  skippedCorrections (mergeTranscript helloMumblyWorld [beautiful]) = 0%nat.
Proof. repeat split; vm_compute; reflexivity. Qed.

(** The second loop on the scenario: no word is left after the window. *)
Lemma merge_scenario_skips_world :
  skipWindow 1.2 helloMumblyWorld = [].
Proof. vm_compute. reflexivity. Qed.

(** The sentinel loses its brackets before it is compared with itself. *)
Lemma cleanText_sentinel :
  cleanText (Str.lit "[unintelligible]") = Str.lit "unintelligible".
Proof. vm_compute. reflexivity. Qed.

Lemma sentinel_passes_first_test :
  emptyOrUnintelligible (cleanText (Str.lit "[unintelligible]")) = false.
Proof. vm_compute. reflexivity. Qed.

(** C2, on the code. With the single original word "intelligible" in the
    window, the candidate "[unintelligible]" is accepted: [shouldApply] is
    true and no reason is given. *)
Theorem sentinel_accepted :
  forall toFixed2,
    let r := reconcile toFixed2 [mkWord (Str.lit "intelligible") 0 0.5 0.45]
               (Str.lit "[unintelligible]") 0 0.5 in
    shouldApply r = true /\ reason r = None /\
    correctedText r = Str.lit "unintelligible".
Proof. intro toFixed2. repeat split; vm_compute; reflexivity. Qed.

(** On the input of the repository's own test the sentinel is rejected, but
    by the ratio guard. *)
Lemma sentinel_test_input :
  forall toFixed2,
    let r := reconcile toFixed2 [mkWord (Str.lit "test") 0 0.5 0.45]
               (Str.lit "[unintelligible]") 0 0.5 in
    shouldApply r = false /\
    reason r = Some (Str.lit "Levenshtein ratio too high: " ++
                     toFixed2 (Num.ofNat 12 / Num.ofNat 14)).
Proof. intro toFixed2. split; reflexivity. Qed.

(** For no input at all does the sentinel get the reason of the first guard. *)
Lemma sentinel_never_first_reason :
  forall toFixed2 originalWords clipStart clipEnd,
    reason (reconcile toFixed2 originalWords (Str.lit "[unintelligible]")
              clipStart clipEnd)
    <> Some (Str.lit "Corrected text is empty or unintelligible").
Proof.
  intros toFixed2 ows cs ce. unfold reconcile.
  rewrite sentinel_passes_first_test.
  destruct (Num.ltb _ _); [|destruct (Str.eqb _ _)]; cbn; discriminate.
Qed.

End Scenarios.

(** ** Reconciliation: the guards of [reconcile] *)

Section Guards.

Import Reconciliation.

Variable toFixed2 : Q -> Str.t.

(** The distance never exceeds what the ratio divides by only when the
    candidate is long enough to pass the first guard: its length is three
    at least. *)
Lemma passes_first_guard_length c :
  emptyOrUnintelligible c = false -> (3 <= List.length c)%nat.
Proof.
  unfold emptyOrUnintelligible. intro H.
  apply orb_false_iff in H as [_ H].
  apply Nat.ltb_ge in H. exact H.
Qed.

Lemma editRatio_quotient o c :
  (0 < List.length c)%nat ->
  editRatio o c =
  Num.ofNat (levenshtein o c) / Num.ofNat (Nat.max (List.length o) (List.length c)).
Proof.
  intro H. unfold editRatio.
  destruct (0 <? Nat.max (List.length o) (List.length c))%nat eqn:E; trivial.
  apply Nat.ltb_ge in E. lia.
Qed.

(** C5. Whenever the cleaned candidate passes the empty-or-unintelligible
    guard and the distance divided by the longer cleaned length exceeds 0.70,
    [reconcile] returns [shouldApply = false] with a reason that contains
    "Levenshtein". *)
Theorem ratio_guard_rejects :
  forall (originalWords : list WhisperWord) (candidate : Str.t) (clipStart clipEnd : Q),
    let cleanedOriginal := cleanText (windowText originalWords clipStart clipEnd) in
    let cleanedCorrection := cleanText candidate in
    emptyOrUnintelligible cleanedCorrection = false ->
    0.7 < Num.ofNat (levenshtein cleanedOriginal cleanedCorrection) /
          Num.ofNat (Nat.max (List.length cleanedOriginal)
                             (List.length cleanedCorrection)) ->
    let r := reconcile toFixed2 originalWords candidate clipStart clipEnd in
    shouldApply r = false /\
    exists why, reason r = Some why /\ Str.includes (Str.lit "Levenshtein") why = true.
Proof.
  intros ows cand cs ce co cc Hguard Hratio r.
  assert (Hlt : Num.ltb MAX_LEVENSHTEIN_RATIO (editRatio co cc) = true).
  { apply ltb_lt. rewrite editRatio_quotient.
    - exact Hratio.
    - apply passes_first_guard_length in Hguard. lia. }
  subst r. unfold reconcile. fold co. fold cc. rewrite Hguard, Hlt.
  split; [reflexivity|].
  eexists. split; [reflexivity|].
  change (Str.lit "Levenshtein ratio too high: ")
    with (Str.lit "Levenshtein" ++ Str.lit " ratio too high: ").
  rewrite <- app_assoc. apply includes_prefix.
Qed.

End Guards.

(** The hallucination test of the repository: ratio 40/46. *)
Lemma ratio_guard_rejects_witness :
  Reconciliation.shouldApply
    (Reconciliation.reconcile Scenario.noDigits Scenario.theRedFox
       Scenario.unrelated 0 1) = false /\
  exists why,
    Reconciliation.reason
      (Reconciliation.reconcile Scenario.noDigits Scenario.theRedFox
         Scenario.unrelated 0 1) = Some why /\
    Str.includes (Str.lit "Levenshtein") why = true.
Proof.
  apply (ratio_guard_rejects Scenario.noDigits Scenario.theRedFox
           Scenario.unrelated 0 1).
  - vm_compute. reflexivity.
  - vm_compute. reflexivity.
Defined.

(** ** Reconciliation: merging with every correction rejected *)

Section MergeRejected.

Import Reconciliation Props.

Lemma insertByClipStart_rejected c cs :
  Correction.shouldApply c = false -> rejectedOnly cs ->
  rejectedOnly (insertByClipStart c cs).
Proof.
  intros Hc Hcs. induction Hcs as [|d cs Hd Hcs IH]; simpl.
  - constructor; [exact Hc | constructor].
  - destruct (Num.leb _ _).
    + constructor; [exact Hc|]. constructor; assumption.
    + constructor; assumption.
Qed.

Lemma insertByClipStart_length c cs :
  List.length (insertByClipStart c cs) = S (List.length cs).
Proof.
  induction cs as [|d cs IH]; simpl; trivial.
  destruct (Num.leb _ _); simpl; congruence.
Qed.

Lemma sortByClipStart_rejected cs :
  rejectedOnly cs -> rejectedOnly (sortByClipStart cs).
Proof.
  induction 1 as [|c cs Hc Hcs IH]; simpl.
  - constructor.
  - apply insertByClipStart_rejected; assumption.
Qed.

Lemma sortByClipStart_length cs :
  List.length (sortByClipStart cs) = List.length cs.
Proof.
  induction cs as [|c cs IH]; simpl; trivial.
  rewrite insertByClipStart_length. congruence.
Qed.

(** A rejected correction moves nothing but the counter of skipped ones. *)
Lemma mergeLoop_rejected cs :
  rejectedOnly cs ->
  forall st,
    fold_left mergeStep cs st =
    {| mergedWords := mergedWords st; remaining := remaining st;
       applied := applied st; skipped := (List.length cs + skipped st)%nat |}.
Proof.
  induction 1 as [|c cs Hc Hcs IH]; intro st; simpl.
  - destruct st; reflexivity.
  - rewrite IH. unfold mergeStep. rewrite Hc. simpl.
    f_equal. lia.
Qed.

Lemma join_cons w ws :
  Str.join (Str.lit " ") (w :: ws) = w ++ spaced ws.
Proof.
  revert w. induction ws as [|v ws IH]; intro w.
  - simpl. now rewrite app_nil_r.
  - change (Str.join (Str.lit " ") (w :: v :: ws))
      with (w ++ Str.lit " " ++ Str.join (Str.lit " ") (v :: ws)).
    rewrite IH. reflexivity.
Qed.

Lemma joinLoop_plain ws :
  Forall (fun w => isPunctuation w = false) ws ->
  forall result prev,
    isPunctuation prev = false ->
    joinLoop result prev ws = result ++ spaced ws.
Proof.
  induction 1 as [|w ws Hw Hws IH]; intros result prev Hprev; simpl.
  - now rewrite app_nil_r.
  - rewrite Hw, Hprev. simpl. rewrite (IH _ _ Hw).
    now rewrite <- !app_assoc.
Qed.

Lemma joinWords_plain ws :
  Forall (fun w => isPunctuation w = false) ws ->
  joinWords ws = Str.join (Str.lit " ") ws.
Proof.
  intro H. destruct ws as [|w ws]; trivial.
  inversion H; subst. unfold joinWords.
  rewrite join_cons. apply joinLoop_plain; assumption.
Qed.

(** With rejected corrections only, the merged words are the original ones. *)
Lemma mergeTranscript_rejected ws c cs :
  rejectedOnly (c :: cs) ->
  mergeTranscript ws (c :: cs) =
  {| text := joinWords (map word ws);
     appliedCorrections := 0;
     skippedCorrections := List.length (c :: cs) |}.
Proof.
  intro H. unfold mergeTranscript.
  rewrite (mergeLoop_rejected _ (sortByClipStart_rejected _ H)).
  cbn [mergedWords remaining applied skipped app].
  rewrite sortByClipStart_length, Nat.add_0_r. reflexivity.
Qed.

(** C3, as stated, fails: a word that is only punctuation is joined without
    a space once the correction list is not empty. *)
Lemma rejected_merge_not_space_joined :
  ~ (forall ws cs, rejectedOnly cs ->
       text (mergeTranscript ws cs) = Str.join (Str.lit " ") (map word ws)).
Proof.
  intro H.
  specialize (H Scenario.helloComma [Scenario.rejected]).
  assert (R : rejectedOnly [Scenario.rejected])
    by (constructor; [reflexivity | constructor]).
  specialize (H R). vm_compute in H. discriminate H.
Qed.

(** C3, amended. When every correction has [shouldApply = false],
    [mergeTranscript] applies none and returns the original words joined by
    [joinWords] (by the plain join when the correction list is empty); when
    in addition no original word is pure punctuation, that text is the
    original words joined with a single space between each adjacent pair. *)
Theorem rejected_merge_keeps_words :
  forall (ws : list WhisperWord) (cs : list Correction.t),
    rejectedOnly cs ->
    appliedCorrections (mergeTranscript ws cs) = 0%nat /\
    skippedCorrections (mergeTranscript ws cs) = List.length cs /\
    (cs <> [] -> text (mergeTranscript ws cs) = joinWords (map word ws)) /\
    (cs = [] -> text (mergeTranscript ws cs) = Str.join (Str.lit " ") (map word ws)) /\
    (Forall (fun w => isPunctuation (word w) = false) ws ->
     text (mergeTranscript ws cs) = Str.join (Str.lit " ") (map word ws)).
Proof.
  intros ws cs H. destruct cs as [|c cs].
  - repeat split; try reflexivity. intro E. now elim E.
  - rewrite (mergeTranscript_rejected ws c cs H).
    cbn [text appliedCorrections skippedCorrections].
    repeat split; try discriminate.
    intro Hp. apply joinWords_plain.
    apply Forall_map. exact Hp.
Qed.

(** The comma of the scenario is attached to the word before it. *)
Lemma rejected_merge_keeps_words_witness :
  appliedCorrections (mergeTranscript Scenario.helloComma [Scenario.rejected]) = 0%nat /\
  skippedCorrections (mergeTranscript Scenario.helloComma [Scenario.rejected]) = 1%nat /\
  text (mergeTranscript Scenario.helloComma [Scenario.rejected]) = Str.lit "Hello,".
Proof.
  destruct (rejected_merge_keeps_words Scenario.helloComma [Scenario.rejected])
    as (A & S & T & _).
  - constructor; [reflexivity | constructor].
  - split; [exact A|]. split; [exact S|].
    rewrite T; [reflexivity | discriminate].
Defined.

End MergeRejected.

(** ** Reconciliation: [cleanText] against the reference cleaning *)

Section Cleaning.

Import Reconciliation Props.

Lemma lowerUnit_space c : Str.isSpace c = true -> Str.lowerUnit c = [c].
Proof.
  unfold Str.isSpace, Str.lowerUnit. intro H.
  destruct ((65 <=? c) && (c <=? 90))%N eqn:U.
  - apply andb_true_iff in U as [U1 U2].
    apply N.leb_le in U1, U2.
    repeat (apply orb_true_iff in H as [H | H]);
      try (apply andb_true_iff in H as [H1 H2]; apply N.leb_le in H1, H2);
      try apply N.eqb_eq in H; lia.
  - destruct (c =? 304)%N eqn:V; [apply N.eqb_eq in V; subst; discriminate H|].
    destruct (c =? 8490)%N eqn:X; [apply N.eqb_eq in X; subst; discriminate H|].
    reflexivity.
Qed.

Lemma toLowerCase_allSpace s : allSpace s -> Str.toLowerCase s = s.
Proof.
  induction 1 as [|c s Hc Hs IH]; simpl; trivial.
  rewrite (lowerUnit_space c Hc). simpl. f_equal. exact IH.
Qed.

Lemma strip_allSpace s : allSpace s -> Str.stripNonWordNonSpace s = s.
Proof.
  induction 1 as [|c s Hc Hs IH]; simpl; trivial.
  rewrite Hc, orb_true_r. f_equal. exact IH.
Qed.

Lemma trimStart_split s : exists pre, allSpace pre /\ s = pre ++ Str.trimStart s.
Proof.
  induction s as [|c s [pre [Hp E]]].
  - exists []. split; [constructor | reflexivity].
  - unfold Str.trimStart. simpl. destruct (Str.isSpace c) eqn:Hc.
    + exists (c :: pre). split; [constructor; assumption|].
      simpl. f_equal. exact E.
    + exists []. split; [constructor | reflexivity].
Qed.

Lemma trimEnd_split s : exists post, allSpace post /\ s = Str.trimEnd s ++ post.
Proof.
  induction s as [|c s [post [Hp E]]].
  - exists []. split; [constructor | reflexivity].
  - simpl. destruct (Str.trimEnd s) as [|k kept] eqn:K.
    + destruct (Str.isSpace c) eqn:Hc.
      * exists (c :: post). split; [constructor; assumption|].
        simpl. f_equal. exact E.
      * exists post. split; [assumption|]. simpl. f_equal. exact E.
    + exists post. split; [assumption|]. simpl. f_equal. exact E.
Qed.

Lemma trimEnd_allSpace s : allSpace s -> Str.trimEnd s = [].
Proof.
  induction 1 as [|c s Hc Hs IH]; simpl; trivial.
  now rewrite IH, Hc.
Qed.

(** What [trimEnd] keeps of [c :: r] depends on [r] through [trimEnd r] only. *)
Lemma trimEnd_cons_congr c r r' :
  Str.trimEnd r = Str.trimEnd r' -> Str.trimEnd (c :: r) = Str.trimEnd (c :: r').
Proof. intro E. simpl. now rewrite E. Qed.

Lemma trimEnd_trimStart s :
  Str.trimEnd (Str.trimStart s) = Str.trimStart (Str.trimEnd s).
Proof.
  unfold Str.trimStart.
  induction s as [|c s IH]; trivial.
  cbn [Str.dropWhile]. destruct (Str.isSpace c) eqn:Hc.
  - rewrite IH. cbn [Str.trimEnd].
    destruct (Str.trimEnd s) as [|k kept];
      rewrite ?Hc; cbn [Str.dropWhile]; rewrite ?Hc; reflexivity.
  - cbn [Str.trimEnd].
    destruct (Str.trimEnd s) as [|k kept];
      rewrite ?Hc; cbn [Str.dropWhile]; rewrite ?Hc; reflexivity.
Qed.

Lemma collapseFrom_allSpace b s : allSpace s -> allSpace (Str.collapseFrom b s).
Proof.
  intro H. revert b. induction H as [|c s Hc Hs IH]; intro b; simpl.
  - constructor.
  - rewrite Hc. destruct b; [apply IH|].
    constructor; [reflexivity | apply IH].
Qed.

(** The flag only decides whether a leading run leaves a space. *)
Lemma trimStart_collapseFrom_flag b s :
  Str.trimStart (Str.collapseFrom b s) = Str.trimStart (Str.collapseFrom false s).
Proof.
  destruct s as [|c s]; trivial. simpl.
  destruct (Str.isSpace c) eqn:Hc; destruct b; trivial.
Qed.

Lemma trimStart_collapse_pad pre s :
  allSpace pre ->
  Str.trimStart (Str.collapseFrom false (pre ++ s)) =
  Str.trimStart (Str.collapseFrom false s).
Proof.
  induction 1 as [|c pre Hc Hp IH]; trivial.
  simpl. rewrite Hc. unfold Str.trimStart at 1. simpl.
  fold (Str.trimStart (Str.collapseFrom true (pre ++ s))).
  rewrite trimStart_collapseFrom_flag. exact IH.
Qed.

Lemma trimEnd_collapse_pad post s :
  allSpace post ->
  forall b,
    Str.trimEnd (Str.collapseFrom b (s ++ post)) =
    Str.trimEnd (Str.collapseFrom b s).
Proof.
  intro Hp. induction s as [|c s IH]; intro b.
  - simpl. apply trimEnd_allSpace, collapseFrom_allSpace, Hp.
  - cbn [app Str.collapseFrom].
    destruct (Str.isSpace c); [destruct b|];
      try apply trimEnd_cons_congr; apply IH.
Qed.

(** White space around the text does not survive collapsing and trimming. *)
Lemma trim_collapse_pad pre post s :
  allSpace pre -> allSpace post ->
  Str.trim (Str.collapseWhitespace (pre ++ s ++ post)) =
  Str.trim (Str.collapseWhitespace s).
Proof.
  intros Hpre Hpost. unfold Str.trim, Str.collapseWhitespace.
  rewrite (trimStart_collapse_pad pre _ Hpre).
  rewrite !trimEnd_trimStart.
  now rewrite (trimEnd_collapse_pad post s Hpost).
Qed.

Lemma trim_split s :
  exists pre post, allSpace pre /\ allSpace post /\ s = pre ++ Str.trim s ++ post.
Proof.
  destruct (trimStart_split s) as [pre [Hpre E]].
  destruct (trimEnd_split (Str.trimStart s)) as [post [Hpost E']].
  exists pre, post. repeat split; trivial.
  unfold Str.trim. rewrite <- E'. exact E.
Qed.

(** The two cleanings differ by white space at the edges only: for every
    string, trimming what [cleanText] returns gives the reference cleaning
    (lower-case, strip, collapse, trim). *)
Lemma cleanText_trimmed_is_reference :
  forall s : Str.t, Str.trim (cleanText s) = cleanReference s.
Proof.
  intro s. unfold cleanText, cleanReference.
  destruct (trim_split s) as (pre & post & Hpre & Hpost & E).
  rewrite E at 2.
  unfold Str.toLowerCase, Str.stripNonWordNonSpace.
  rewrite !flat_map_app, !filter_app.
  fold (Str.toLowerCase pre) (Str.toLowerCase post) (Str.toLowerCase (Str.trim s)).
  rewrite (toLowerCase_allSpace pre Hpre), (toLowerCase_allSpace post Hpost).
  fold (Str.stripNonWordNonSpace pre) (Str.stripNonWordNonSpace post)
       (Str.stripNonWordNonSpace (Str.toLowerCase (Str.trim s))).
  rewrite (strip_allSpace pre Hpre), (strip_allSpace post Hpost).
  symmetry. apply trim_collapse_pad; assumption.
Qed.

(** C7, on the code. [cleanText] trims before it strips, so punctuation at
    the edge of the trimmed input is deleted after the trim and the space
    next to it stays: on the three units of an exclamation mark, a space and
    the letter a it returns the space and the letter, where the reference
    cleaning returns the letter alone.  In [reconcile] the words hello and
    world of the window and a candidate that puts a hyphen and a space in
    front of them, which the reference cleans to the same text, are found
    at distance 1, and the candidate is applied with its leading space,
    where equal cleaned texts are left alone. *)
Theorem cleanText_keeps_edge_space :
  cleanText (Str.lit "! a") = Str.lit " a" /\
  cleanReference (Str.lit "! a") = Str.lit "a" /\
  edgeWhitespace (cleanText (Str.lit "! a")) /\
  forall toFixed2 : Q -> Str.t,
    let r := reconcile toFixed2 Scenario.helloWorld Scenario.hyphenated 0 1 in
    originalText r = Str.lit "hello world" /\
    cleanReference Scenario.hyphenated = cleanReference (originalText r) /\
    correctedText r = Str.lit " hello world" /\
    levenshteinDistance r = 1%nat /\
    shouldApply r = true /\
    reason r = None.
Proof.
  split; [vm_compute; reflexivity|].
  split; [vm_compute; reflexivity|].
  split.
  - left. exists 32%N, (Str.lit "a"). split; reflexivity.
  - intro toFixed2. repeat split; vm_compute; reflexivity.
Qed.

End Cleaning.

(** ** Clustering: the loops without their accumulators *)

Section ClusteringLoops.

Import Clustering Props.

Variable options : ClusteringOptions.

Lemma groupLoop_chunks rest :
  forall raw current,
    groupLoop options raw current rest = raw ++ chunks options current rest.
Proof.
  induction rest as [|w rest IH]; intros raw current; simpl; trivial.
  destruct (Num.leb _ _); rewrite IH; trivial.
  now rewrite <- app_assoc.
Qed.

Lemma mergeLoop_run rest :
  forall merged current,
    mergeLoop merged current rest = merged ++ mergeRun current rest.
Proof.
  induction rest as [|next rest IH]; intros merged current; simpl; trivial.
  destruct (Num.geb _ _); rewrite IH; trivial.
  now rewrite <- app_assoc.
Qed.

Lemma mergeOverlappingClusters_run c rest :
  mergeOverlappingClusters (c :: rest) = mergeRun c rest.
Proof.
  destruct rest as [|d rest]; trivial.
  unfold mergeOverlappingClusters. now rewrite mergeLoop_run.
Qed.

Lemma annotatedClusters_chunks ws :
  annotatedClusters options ws =
  match lowConfidenceWords options ws with
  | [] => []
  | first :: rest => mapIndexFrom (annotate options) 0 (chunks options [first] rest)
  end.
Proof.
  unfold annotatedClusters. destruct (lowConfidenceWords options ws); trivial.
  now rewrite groupLoop_chunks.
Qed.

Lemma clusterLowConfidenceWords_merge ws :
  clusterLowConfidenceWords options ws =
  mergeOverlappingClusters (annotatedClusters options ws).
Proof.
  unfold clusterLowConfidenceWords, annotatedClusters.
  destruct ws as [|w ws]; trivial.
  destruct (lowConfidenceWords options (w :: ws)); trivial.
Qed.

Lemma mapIndexFrom_length {A B} (f : A -> nat -> B) l :
  forall k, List.length (mapIndexFrom f k l) = List.length l.
Proof.
  induction l as [|a l IH]; intro k; simpl; congruence.
Qed.

Lemma mapIndexFrom_Forall {A B} (f : A -> nat -> B) (P : A -> Prop) (Q : B -> Prop) :
  (forall a i, P a -> Q (f a i)) ->
  forall l k, Forall P l -> Forall Q (mapIndexFrom f k l).
Proof.
  intros H l. induction l as [|a l IH]; intros k Hl; simpl; constructor;
    inversion Hl; subst; auto.
Qed.

Lemma mapIndexFrom_Sorted {A B} (f : A -> nat -> B)
    (R : A -> A -> Prop) (S : B -> B -> Prop) :
  (forall a b i j, R a b -> S (f a i) (f b j)) ->
  forall l k, Sorted R l -> Sorted S (mapIndexFrom f k l).
Proof.
  intros H l. induction l as [|a l IH]; intros k Hl; simpl; constructor;
    inversion Hl; subst; auto.
  destruct l as [|b l]; simpl; constructor.
  apply H. now inversion H3.
Qed.

Lemma words_annotate g i : words (annotate options g i) = g.
Proof. reflexivity. Qed.

Lemma words_mapIndexFrom gs :
  forall k, map words (mapIndexFrom (annotate options) k gs) = gs.
Proof.
  induction gs as [|g gs IH]; intro k; simpl; trivial.
  now rewrite IH.
Qed.

(** Every chunk has a word, and its words come from the input. *)
Lemma chunks_Forall (P : WhisperWord -> Prop) rest :
  forall current,
    current <> [] -> Forall P (current ++ rest) ->
    Forall (fun g => g <> [] /\ Forall P g) (chunks options current rest).
Proof.
  induction rest as [|w rest IH]; intros current Hne H; simpl.
  - rewrite app_nil_r in H. repeat constructor; assumption.
  - destruct (Num.leb _ _).
    + apply IH.
      * destruct current; discriminate.
      * now rewrite <- app_assoc.
    + apply Forall_app in H as [Hc Hr]. constructor.
      * split; assumption.
      * apply IH; [discriminate | exact Hr].
Qed.

Lemma mergeRun_Forall (P : ConfidenceCluster -> Prop) :
  (forall a b, P a -> P b -> P (mergePair a b)) ->
  forall rest current, Forall P (current :: rest) -> Forall P (mergeRun current rest).
Proof.
  intros Hm rest. induction rest as [|next rest IH]; intros current H; simpl.
  - exact H.
  - inversion H as [|? ? Hc Hr]; subst. inversion Hr as [|? ? Hn Hr']; subst.
    destruct (Num.geb _ _).
    + apply IH. constructor; auto.
    + constructor; auto.
Qed.

Lemma mergeRun_length rest :
  forall current, (List.length (mergeRun current rest) <= S (List.length rest))%nat.
Proof.
  induction rest as [|next rest IH]; intro current; simpl; trivial.
  destruct (Num.geb _ _).
  - specialize (IH (mergePair current next)). lia.
  - specialize (IH next). simpl. lia.
Qed.

Lemma mergeRun_apart rest :
  forall current, windowsApart (current :: rest) -> mergeRun current rest = current :: rest.
Proof.
  induction rest as [|next rest IH]; intros current H; trivial.
  destruct H as [Hlt H]. cbn [mergeRun].
  apply geb_lt in Hlt. rewrite Hlt. f_equal. apply IH, H.
Qed.

End ClusteringLoops.

(** ** Clustering: the confidence of the words of a cluster *)

Section MeanConfidence.

Import Clustering Props.

Variable options : ClusteringOptions.




End MeanConfidence.



(** ** Clustering: low-confidence words far from each other *)

Section DistantWords.

Import Clustering Props.

Variable options : ClusteringOptions.

(** With every gap above the proximity threshold the loop never appends. *)
Lemma chunks_distant rest :
  forall a,
    gapsExceed (proximityThreshold options) (a :: rest) ->
    chunks options [a] rest = map (fun w => [w]) (a :: rest).
Proof.
  induction rest as [|b rest IH]; intros a H; trivial.
  destruct H as [Hgap H]. cbn [chunks last].
  apply leb_gt in Hgap. rewrite Hgap.
  cbn [map]. f_equal. apply IH, H.
Qed.

Lemma annotatedClusters_distant ws :
  gapsExceed (proximityThreshold options) (lowConfidenceWords options ws) ->
  map words (annotatedClusters options ws) =
  map (fun w => [w]) (lowConfidenceWords options ws).
Proof.
  intro H. rewrite annotatedClusters_chunks.
  destruct (lowConfidenceWords options ws) as [|a rest]; trivial.
  rewrite words_mapIndexFrom. apply chunks_distant, H.
Qed.

Lemma clusterLowConfidenceWords_length ws :
  (List.length (clusterLowConfidenceWords options ws) <=
   List.length (annotatedClusters options ws))%nat.
Proof.
  rewrite clusterLowConfidenceWords_merge.
  destruct (annotatedClusters options ws) as [|c rest]; trivial.
  rewrite mergeOverlappingClusters_run. apply mergeRun_length.
Qed.

Lemma clusterLowConfidenceWords_apart ws :
  windowsApart (annotatedClusters options ws) ->
  clusterLowConfidenceWords options ws = annotatedClusters options ws.
Proof.
  intro H. rewrite clusterLowConfidenceWords_merge.
  destruct (annotatedClusters options ws) as [|c rest]; trivial.
  rewrite mergeOverlappingClusters_run. apply mergeRun_apart, H.
Qed.

End DistantWords.

(** C4, as stated, fails: on the words of the repository's test on distant
    low-confidence words (the loop's difference [10 - 0.5] is 9.5, above the
    threshold of 5) the two 20-second windows overlap and one cluster is
    returned for two words. *)
Lemma distant_words_one_cluster :
  Props.gapsExceed (Clustering.proximityThreshold Clustering.defaults)
    (Clustering.lowConfidenceWords Clustering.defaults Scenario.distantPair) /\
  List.length (Clustering.lowConfidenceWords Clustering.defaults Scenario.distantPair)
    = 2%nat /\
  List.length (Clustering.clusterLowConfidenceWords Clustering.defaults
                 Scenario.distantPair) = 1%nat /\
  List.length (Clustering.clusterLowConfidenceWords Clustering.defaults
                 Scenario.distantPair) <>
  List.length (Clustering.lowConfidenceWords Clustering.defaults Scenario.distantPair).
Proof.
  split; [|split; [|split]]; try reflexivity.
  - vm_compute. split; [reflexivity | exact I].
  - vm_compute. discriminate.
Qed.

(** C4, amended. When for each low-confidence word the binary64 difference
    [start - end] that the loop computes, from the end of the low-confidence
    word before it, exceeds [p], the grouping step puts every low-confidence
    word in a cluster of its own; the returned list, in which overlapping
    correction windows have been merged, has at most that many clusters, and
    exactly that many, namely the grouped ones, when every window ends
    before the next one starts. *)
Theorem distant_words_own_cluster :
  forall (options : Clustering.ClusteringOptions) (ws : list WhisperWord),
    let low := Clustering.lowConfidenceWords options ws in
    let raw := Clustering.annotatedClusters options ws in
    let out := Clustering.clusterLowConfidenceWords options ws in
    Props.gapsExceed (Clustering.proximityThreshold options) low ->
    map Clustering.words raw = map (fun w => [w]) low /\
    (List.length out <= List.length low)%nat /\
    (Props.windowsApart raw -> out = raw /\ List.length out = List.length low).
Proof.
  intros options ws low raw out H.
  pose proof (annotatedClusters_distant options ws H) as Hraw.
  assert (Hlen : List.length raw = List.length low).
  { subst raw low.
    rewrite <- (length_map Clustering.words), Hraw. apply length_map. }
  split; [exact Hraw|]. split.
  - rewrite <- Hlen. apply clusterLowConfidenceWords_length.
  - intro Hapart. subst out.
    rewrite (clusterLowConfidenceWords_apart options ws Hapart).
    split; [reflexivity | exact Hlen].
Qed.

(** Two words forty seconds apart keep their two windows. *)
Lemma distant_words_own_cluster_witness :
  map Clustering.words (Clustering.annotatedClusters Clustering.defaults Scenario.farPair)
    = map (fun w => [w])
        (Clustering.lowConfidenceWords Clustering.defaults Scenario.farPair) /\
  List.length (Clustering.clusterLowConfidenceWords Clustering.defaults Scenario.farPair)
    = 2%nat.
Proof.
  destruct (distant_words_own_cluster Clustering.defaults Scenario.farPair)
    as (R & _ & A).
  - vm_compute. split; [reflexivity | exact I].
  - split; [exact R|].
    destruct A as [_ L].
    + vm_compute. split; [reflexivity | exact I].
    + rewrite L. reflexivity.
Defined.

(** ** Clustering: the correction windows *)

Section Windows.

Import Clustering Props.

Variable options : ClusteringOptions.

Hypothesis proximity_nonnegative : 0 <= proximityThreshold options.

Lemma startsBefore_trans : Relation_Definitions.transitive _ startsBefore.
Proof. intros a b c H1 H2. unfold startsBefore in *. lra. Qed.

Lemma StronglySorted_app_inv {A} (R : A -> A -> Prop) l1 l2 :
  StronglySorted R (l1 ++ l2) -> StronglySorted R l1 /\ StronglySorted R l2.
Proof.
  induction l1 as [|a l1 IH]; simpl; intro H.
  - split; [constructor | exact H].
  - apply StronglySorted_inv in H as [H Ha].
    destruct (IH H) as [H1 H2]. split; trivial.
    constructor; trivial. apply Forall_app in Ha. tauto.
Qed.

Lemma StronglySorted_filter {A} (R : A -> A -> Prop) f l :
  StronglySorted R l -> StronglySorted R (filter f l).
Proof.
  induction 1 as [|a l Hl IH Ha]; simpl; [constructor|].
  destruct (f a); trivial. constructor; trivial.
  apply Forall_forall. intros x Hx. apply filter_In in Hx as [Hx _].
  revert x Hx. now apply Forall_forall.
Qed.

Lemma lowConfidenceWords_ordered ws :
  orderedByStart ws -> Forall wellTimed ws ->
  StronglySorted startsBefore (lowConfidenceWords options ws) /\
  Forall wellTimed (lowConfidenceWords options ws).
Proof.
  intros Hs Hw. split.
  - apply StronglySorted_filter, Sorted_StronglySorted;
      [exact startsBefore_trans | exact Hs].
  - apply Forall_forall. intros x Hx. apply filter_In in Hx as [Hx _].
    revert x Hx. now apply Forall_forall.
Qed.

(** In a readable chunk the first word starts no later than the last. *)
Lemma first_starts_before_last g :
  StronglySorted startsBefore g ->
  forall d, start (hd d g) <= start (last g d).
Proof.
  induction 1 as [|a g Hg IH Ha]; intro d; [apply Qle_refl|].
  destruct g as [|b g]; [apply Qle_refl|].
  cbn [hd]. change (last (a :: b :: g) d) with (last (b :: g) d).
  assert (Hin : In (last (b :: g) d) (b :: g)).
  { clear. revert b. induction g as [|c g IHg]; intro b; [now left|].
    right. apply IHg. }
  revert Hin. generalize (last (b :: g) d). now apply Forall_forall.
Qed.

Lemma readable_span g :
  readable g -> 0 <= chunkStart g /\ chunkStart g < chunkEnd g.
Proof.
  intros (Hne & Hs & Hw). unfold chunkStart, chunkEnd.
  pose proof (first_starts_before_last g Hs noWord) as H.
  destruct g as [|a g]; [now elim Hne|].
  assert (Hlast : wellTimed (last (a :: g) noWord)).
  { assert (Hin : In (last (a :: g) noWord) (a :: g)).
    { clear. revert a. induction g as [|c g IHg]; intro a; [now left|].
      right. apply IHg. }
    revert Hin. generalize (last (a :: g) noWord). now apply Forall_forall. }
  inversion Hw as [|? ? [Ha0 Ha1] _]; subst.
  destruct Hlast as [_ Hl]. cbn [hd] in *. split; lra.
Qed.

Lemma chunkStart_app g w : g <> [] -> chunkStart (g ++ [w]) = chunkStart g.
Proof. destruct g; [intro H; now elim H | reflexivity]. Qed.

(** The chunks are readable, each ends before the next starts, and the first
    of them begins with the chunk being filled. *)
Lemma chunks_readable rest :
  forall current,
    current <> [] ->
    StronglySorted startsBefore (current ++ rest) ->
    Forall wellTimed (current ++ rest) ->
    Forall readable (chunks options current rest) /\
    Sorted chunkBefore (chunks options current rest) /\
    exists g tl, chunks options current rest = g :: tl /\
                 chunkStart g = chunkStart current.
Proof.
  induction rest as [|w rest IH]; intros current Hne Hs Hw.
  - rewrite app_nil_r in *. cbn [chunks]. repeat split.
    + repeat constructor; assumption.
    + repeat constructor.
    + exists current, []. split; reflexivity.
  - cbn [chunks]. destruct (Num.leb _ _) eqn:Hclose.
    + destruct (IH (current ++ [w])) as (R & S & g & tl & E & Hg).
      * destruct current; discriminate.
      * now rewrite <- app_assoc.
      * now rewrite <- app_assoc.
      * repeat split; trivial. exists g, tl. split; trivial.
        rewrite Hg. now apply chunkStart_app.
    + apply leb_gt in Hclose.
      apply StronglySorted_app_inv in Hs as [Hs1 Hs2].
      apply Forall_app in Hw as [Hw1 Hw2].
      destruct (IH [w]) as (R & S & g & tl & E & Hg);
        [discriminate | exact Hs2 | exact Hw2 |].
      repeat split.
      * constructor; trivial. repeat split; assumption.
      * constructor; trivial. rewrite E. constructor.
        unfold chunkBefore. rewrite Hg. unfold chunkStart, chunkEnd. cbn [hd].
        destruct (Qlt_le_dec (end_ (last current noWord)) (start w)) as [L|G];
          trivial.
        exfalso.
        assert (N : start w - end_ (last current noWord) <= 0) by lra.
        apply round_nonpos in N. unfold Num.sub in Hclose. lra.
      * exists current, (chunks options [w] rest). split; reflexivity.
Qed.

End Windows.

(** Halving written as a product, which linear arithmetic accepts. *)
Ltac halves := unfold Qdiv in *; change (/ 2) with (1 # 2) in *.

Section NonOverlap.

Import Clustering Props.

Variable options : ClusteringOptions.

Hypothesis window_positive : 0 < correctionWindow options.

Lemma half_nonneg x : 0 <= x -> 0 <= Num.div x 2.
Proof.
  intro H. unfold Num.div. apply round_nonneg. halves. lra.
Qed.

Lemma half_mono x y : x <= y -> Num.div x 2 <= Num.div y 2.
Proof.
  intro H. unfold Num.div. apply round_mono. halves. lra.
Qed.

Lemma centre_nonneg s e : 0 <= s -> 0 <= e -> 0 <= Num.div (Num.add s e) 2.
Proof.
  intros Hs He. apply half_nonneg. unfold Num.add. apply round_nonneg. lra.
Qed.

Lemma centre_mono s e s' e' :
  s <= s' -> e <= e' -> Num.div (Num.add s e) 2 <= Num.div (Num.add s' e') 2.
Proof.
  intros Hs He. apply half_mono. unfold Num.add. apply round_mono. lra.
Qed.

Lemma annotate_closed g i :
  readable g -> closedWindow (annotate options g i).
Proof.
  intro Hg. apply readable_span in Hg as [H0 H1].
  unfold closedWindow, chunkStart, chunkEnd in *.
  cbn [clipStart clipEnd annotate].
  set (s := start (hd noWord g)) in *. set (e := end_ (last g noWord)) in *.
  assert (Hc : 0 <= Num.div (Num.add s e) 2) by (apply centre_nonneg; lra).
  assert (Hh : 0 <= Num.div (correctionWindow options) 2)
    by (apply half_nonneg; lra).
  set (c := Num.div (Num.add s e) 2) in *.
  set (h := Num.div (correctionWindow options) 2) in *.
  apply Q.max_lub.
  - unfold Num.add. apply round_nonneg. lra.
  - unfold Num.sub, Num.add. apply round_mono. lra.
Qed.

Lemma annotate_ordered g h i j :
  readable g /\ readable h /\ chunkBefore g h ->
  windowNotAfter (annotate options g i) (annotate options h j).
Proof.
  intros (Hg & Hh & Hgh).
  apply readable_span in Hg as [_ Hg]. apply readable_span in Hh as [_ Hh].
  unfold windowNotAfter, chunkBefore, chunkStart, chunkEnd in *.
  cbn [clipStart annotate].
  set (s := start (hd noWord g)) in *. set (e := end_ (last g noWord)) in *.
  set (s' := start (hd noWord h)) in *. set (e' := end_ (last h noWord)) in *.
  assert (Hc : Num.div (Num.add s e) 2 <= Num.div (Num.add s' e') 2)
    by (apply centre_mono; lra).
  set (c := Num.div (Num.add s e) 2) in *.
  set (c' := Num.div (Num.add s' e') 2) in *.
  set (hw := Num.div (correctionWindow options) 2) in *.
  assert (M : Num.sub c hw <= Num.sub c' hw)
    by (unfold Num.sub; apply round_mono; lra).
  apply Q.max_le_compat_l. exact M.
Qed.

(** A relation between neighbours can carry what is known of each of them. *)
Lemma Sorted_with_Forall {A} (R : A -> A -> Prop) (P : A -> Prop) l :
  Forall P l -> Sorted R l -> Sorted (fun a b => P a /\ P b /\ R a b) l.
Proof.
  intros HP HS. induction HS as [|a l HS IH Hd]; [constructor|].
  inversion HP as [|? ? Ha Hl]; subst. constructor; [apply IH, Hl|].
  destruct Hd as [|b l Hab]; constructor.
  inversion Hl; subst. repeat split; assumption.
Qed.

Lemma mergePair_closed a b :
  closedWindow a -> closedWindow b -> closedWindow (mergePair a b).
Proof.
  unfold closedWindow. cbn [clipStart clipEnd mergePair]. intros Ha Hb.
  destruct (Q.min_spec (clipStart a) (clipStart b)) as [[? ->] | [? ->]];
    destruct (Q.max_spec (clipEnd a) (clipEnd b)) as [[? ->] | [? ->]]; lra.
Qed.

(** No returned cluster starts its window before the running one does. *)
Lemma mergeRun_not_before rest :
  forall current,
    Sorted windowNotAfter (current :: rest) ->
    Forall (windowNotAfter current) (mergeRun current rest).
Proof.
  induction rest as [|next rest IH]; intros current H; cbn [mergeRun].
  - constructor; [apply Qle_refl | constructor].
  - apply Sorted_inv in H as [H Hd]. apply HdRel_inv in Hd.
    unfold windowNotAfter in Hd.
    destruct (Num.geb _ _).
    + assert (E : clipStart (mergePair current next) == clipStart current).
      { cbn [clipStart mergePair].
        destruct (Q.min_spec (clipStart current) (clipStart next))
          as [[? ->] | [? ->]]; lra. }
      assert (S' : Sorted windowNotAfter (mergePair current next :: rest)).
      { apply Sorted_inv in H as [H Hd']. constructor; trivial.
        destruct Hd' as [|c l Hc]; constructor.
        unfold windowNotAfter in *. lra. }
      eapply Forall_impl; [|apply (IH _ S')].
      intros x Hx. unfold windowNotAfter in *. lra.
    + constructor; [apply Qle_refl|].
      eapply Forall_impl; [|apply (IH _ H)].
      intros x Hx. unfold windowNotAfter in *. lra.
Qed.

(** Every returned window ends before each later one starts. *)
Lemma mergeRun_windowBefore rest :
  forall current,
    Sorted windowNotAfter (current :: rest) ->
    StronglySorted windowBefore (mergeRun current rest).
Proof.
  induction rest as [|next rest IH]; intros current H; cbn [mergeRun].
  - repeat constructor.
  - pose proof H as H0.
    apply Sorted_inv in H as [H Hd]. apply HdRel_inv in Hd.
    unfold windowNotAfter in Hd.
    destruct (Num.geb _ _) eqn:Hover.
    + apply IH.
      apply Sorted_inv in H as [H Hd']. constructor; trivial.
      destruct Hd' as [|c l Hc]; constructor.
      unfold windowNotAfter in *. cbn [clipStart mergePair].
      destruct (Q.min_spec (clipStart current) (clipStart next))
        as [[? ->] | [? ->]]; lra.
    + apply geb_lt in Hover. constructor; [apply IH, H|].
      eapply Forall_impl; [|apply (mergeRun_not_before _ _ H)].
      intros x Hx. unfold windowBefore, windowNotAfter in *. lra.
Qed.



End NonOverlap.




(** * Further properties *)

(** ** Clustering: what the clusters hold *)

Section ClusterContents.

Import Clustering Props Shape.

Variable options : ClusteringOptions.

Lemma chunks_concat rest :
  forall current, List.concat (chunks options current rest) = current ++ rest.
Proof.
  induction rest as [|w rest IH]; intro current; cbn [chunks].
  - simpl. reflexivity.
  - destruct (Num.leb _ _).
    + rewrite IH, <- app_assoc. reflexivity.
    + cbn [List.concat]. rewrite IH. reflexivity.
Qed.

Lemma mergeRun_words rest :
  forall current,
    List.concat (map words (mergeRun current rest)) =
    List.concat (map words (current :: rest)).
Proof.
  induction rest as [|next rest IH]; intro current; cbn [mergeRun]; trivial.
  destruct (Num.geb _ _).
  - rewrite IH. cbn [map List.concat words mergePair]. now rewrite app_assoc.
  - cbn [map List.concat]. rewrite IH. reflexivity.
Qed.

Lemma mergeRun_nonempty rest current : mergeRun current rest <> [].
Proof.
  revert current. induction rest as [|next rest IH]; intro current; cbn [mergeRun].
  - discriminate.
  - destruct (Num.geb _ _); [apply IH | discriminate].
Qed.

Lemma chunks_length rest :
  forall current,
    (List.length (chunks options current rest) <= S (List.length rest))%nat.
Proof.
  induction rest as [|w rest IH]; intro current; cbn [chunks]; trivial.
  destruct (Num.leb _ _).
  - specialize (IH (current ++ [w])). simpl. lia.
  - specialize (IH [w]). simpl. lia.
Qed.

Lemma annotatedClusters_words ws :
  List.concat (map words (annotatedClusters options ws)) = lowConfidenceWords options ws.
Proof.
  rewrite annotatedClusters_chunks.
  destruct (lowConfidenceWords options ws) as [|first rest]; trivial.
  rewrite words_mapIndexFrom. apply chunks_concat.
Qed.

Lemma annotatedClusters_length ws :
  (List.length (annotatedClusters options ws) <=
   List.length (lowConfidenceWords options ws))%nat.
Proof.
  rewrite annotatedClusters_chunks.
  destruct (lowConfidenceWords options ws) as [|first rest]; trivial.
  rewrite mapIndexFrom_length. apply chunks_length.
Qed.

Lemma clusterLowConfidenceWords_words ws :
  List.concat (map words (clusterLowConfidenceWords options ws)) =
  lowConfidenceWords options ws.
Proof.
  rewrite clusterLowConfidenceWords_merge, <- annotatedClusters_words.
  destruct (annotatedClusters options ws) as [|c rest]; trivial.
  rewrite mergeOverlappingClusters_run. apply mergeRun_words.
Qed.

Lemma annotatedClusters_populated ws :
  Forall (fun c => words c <> []) (annotatedClusters options ws).
Proof.
  rewrite annotatedClusters_chunks.
  destruct (lowConfidenceWords options ws) as [|first rest]; [constructor|].
  apply (mapIndexFrom_Forall _ (fun g => g <> [] /\ Forall (fun _ => True) g)).
  - intros g i [H _]. exact H.
  - apply chunks_Forall; [discriminate|].
    apply Forall_forall. trivial.
Qed.

Lemma mergePair_populated a b :
  words a <> [] -> words b <> [] -> words (mergePair a b) <> [].
Proof.
  intros Ha _. cbn [words mergePair].
  destruct (words a); [now elim Ha | discriminate].
Qed.

Lemma clusterLowConfidenceWords_populated ws :
  Forall (fun c => words c <> []) (clusterLowConfidenceWords options ws).
Proof.
  rewrite clusterLowConfidenceWords_merge.
  pose proof (annotatedClusters_populated ws) as H.
  destruct (annotatedClusters options ws) as [|c rest]; [constructor|].
  rewrite mergeOverlappingClusters_run.
  apply (mergeRun_Forall _ mergePair_populated), H.
Qed.

(** X1. The words of the returned clusters, read cluster after cluster, are
    exactly the low-confidence words in their original order: each of them
    is in one cluster, once, and no other word is in any. *)
Theorem clusters_partition_low_confidence_words :
  forall ws : list WhisperWord,
    List.concat (map words (clusterLowConfidenceWords options ws)) =
    filter (fun w => Num.ltb (probability w) (confidenceThreshold options)) ws.
Proof.
  intro ws. fold (lowConfidenceWords options ws).
  rewrite clusterLowConfidenceWords_merge, <- annotatedClusters_words.
  destruct (annotatedClusters options ws) as [|c rest]; trivial.
  rewrite mergeOverlappingClusters_run. apply mergeRun_words.
Qed.

(** X2. No cluster is empty, there are never more clusters than
    low-confidence words, and the result is empty exactly when no word is
    below the threshold. *)
Theorem clusters_populated_and_bounded :
  forall ws : list WhisperWord,
    Forall (fun c => words c <> []) (clusterLowConfidenceWords options ws) /\
    (List.length (clusterLowConfidenceWords options ws) <=
     List.length (lowConfidenceWords options ws))%nat /\
    (clusterLowConfidenceWords options ws = [] <-> lowConfidenceWords options ws = []).
Proof.
  intro ws. split; [apply clusterLowConfidenceWords_populated|]. split.
  - eapply Nat.le_trans; [apply clusterLowConfidenceWords_length|].
    apply annotatedClusters_length.
  - split; intro H.
    + rewrite <- clusterLowConfidenceWords_words, H. reflexivity.
    + unfold clusterLowConfidenceWords. rewrite H. destruct ws; reflexivity.
Qed.

End ClusterContents.

(** ** Clustering: the proximity grouping *)

Section Grouping.

Import Clustering Props Shape.

Variable options : ClusteringOptions.

Lemma withinProximity_snoc p g w :
  g <> [] -> withinProximity p g ->
  Num.sub (start w) (end_ (last g noWord)) <= p ->
  withinProximity p (g ++ [w]).
Proof.
  induction g as [|a g IH]; intros Hne Hg Hw; [now elim Hne|].
  destruct g as [|b g].
  - simpl in *. split; [exact Hw | exact I].
  - destruct Hg as [Hab Hg]. cbn [app withinProximity]. split; [exact Hab|].
    apply IH; [discriminate | exact Hg | exact Hw].
Qed.

(** The first chunk begins with the chunk being filled. *)
Lemma chunks_head rest :
  forall current,
    current <> [] ->
    exists g tl, chunks options current rest = g :: tl /\
                 chunkStart g = chunkStart current.
Proof.
  induction rest as [|w rest IH]; intros current Hne; cbn [chunks].
  - exists current, []. split; reflexivity.
  - destruct (Num.leb _ _).
    + destruct (IH (current ++ [w])) as (g & tl & E & Hg);
        [destruct current; discriminate|].
      exists g, tl. split; [exact E|].
      rewrite Hg. now apply chunkStart_app.
    + exists current, (chunks options [w] rest). split; reflexivity.
Qed.

Lemma chunks_proximity rest :
  forall current,
    current <> [] ->
    withinProximity (proximityThreshold options) current ->
    Forall (fun g => g <> [] /\ withinProximity (proximityThreshold options) g)
           (chunks options current rest) /\
    Sorted (farApart (proximityThreshold options)) (chunks options current rest).
Proof.
  induction rest as [|w rest IH]; intros current Hne Hcur; cbn [chunks].
  - split; repeat constructor; assumption.
  - destruct (Num.leb _ _) eqn:Hclose.
    + apply leb_le in Hclose. apply IH.
      * destruct current; discriminate.
      * apply withinProximity_snoc; assumption.
    + apply leb_gt in Hclose.
      destruct (IH [w]) as [Hf Hs]; [discriminate | exact I |].
      split.
      * constructor; [split; assumption | exact Hf].
      * constructor; [exact Hs|].
        destruct (chunks_head rest [w]) as (g & tl & E & Hg); [discriminate|].
        rewrite E. constructor. unfold farApart. rewrite Hg. exact Hclose.
Qed.

(** X3. The grouping loop cuts the low-confidence words into consecutive
    runs: put end to end the runs give the words back, no run is empty,
    inside a run each word starts at most [proximityThreshold] after the end
    of the one before, and each run starts more than [proximityThreshold]
    after the end of the run before, the distance being the binary64
    difference [start - end] that the loop computes. *)
Theorem grouping_cuts_at_gaps :
  forall (first : WhisperWord) (rest : list WhisperWord),
    let groups := groupLoop options [] [first] rest in
    List.concat groups = first :: rest /\
    Forall (fun g => g <> [] /\ withinProximity (proximityThreshold options) g)
           groups /\
    Sorted (farApart (proximityThreshold options)) groups.
Proof.
  intros first rest groups. subst groups.
  rewrite groupLoop_chunks. cbn [app]. split.
  - apply (chunks_concat options rest [first]).
  - apply chunks_proximity; [discriminate | exact I].
Qed.

(** X4. When exactly one word is below the threshold, one cluster is
    returned; it holds that word and has its start and end times, its centre
    is the binary64 mean of the two, its mean confidence is the word's
    probability when that is a binary64 number, and its window runs from the
    centre less half of [correctionWindow], or from zero when the centre is
    at most that half, to the centre plus that half, each computed in
    binary64. *)
Theorem single_low_confidence_word :
  forall (ws : list WhisperWord) (w : WhisperWord),
    lowConfidenceWords options ws = [w] ->
    exists c,
      clusterLowConfidenceWords options ws = [c] /\
      words c = [w] /\
      startTime c = start w /\
      endTime c = end_ w /\
      centerTime c = Num.div (Num.add (start w) (end_ w)) 2 /\
      (isDouble (probability w) -> averageConfidence c == probability w) /\
      clipEnd c = Num.add (centerTime c) (Num.div (correctionWindow options) 2) /\
      (Num.div (correctionWindow options) 2 <= centerTime c ->
       clipStart c ==
       Num.sub (centerTime c) (Num.div (correctionWindow options) 2)) /\
      (centerTime c <= Num.div (correctionWindow options) 2 -> clipStart c == 0).
Proof.
  intros ws w H.
  exists (annotate options [w] 0). split.
  - rewrite clusterLowConfidenceWords_merge, annotatedClusters_chunks, H.
    reflexivity.
  - cbn [annotate words averageConfidence centerTime clipEnd clipStart
           startTime endTime hd last fold_left List.length].
    change (Num.ofNat 1) with 1.
    set (c := Num.div (Num.add (start w) (end_ w)) 2).
    set (h := Num.div (correctionWindow options) 2).
    do 4 (split; [reflexivity|]).
    split; [|split; [reflexivity|split]].
    + intro D. unfold Num.div, Num.add.
      assert (E : Num.round (0 + probability w) == probability w).
      { transitivity (Num.round (probability w)); [|exact D].
        apply round_comp. ring. }
      transitivity (Num.round (probability w)); [|exact D].
      apply round_comp. rewrite E. field.
    + intro Hc. apply Q.max_r.
      unfold Num.sub. apply round_nonneg. lra.
    + intro Hc. apply Q.max_l.
      unfold Num.sub. apply round_nonpos. lra.
Qed.

End Grouping.

(** One word below the threshold at 30 s: the window is [20.25, 40.25]. *)
Lemma single_low_confidence_word_witness :
  exists c,
    Clustering.clusterLowConfidenceWords Clustering.defaults Sample.oneLow = [c] /\
    Clustering.clipStart c == 20.25 /\ Clustering.clipEnd c == 40.25.
Proof.
  destruct (single_low_confidence_word Clustering.defaults Sample.oneLow
              (mkWord (Str.lit "mumbly") 30.0 30.5 0.45))
    as (c & E & _ & _ & _ & Hc & _ & He & Hs & _).
  - reflexivity.
  - exists c. split; [exact E|].
    rewrite Hc in He, Hs. split.
    + rewrite Hs; [vm_compute; reflexivity | vm_compute; discriminate].
    + rewrite He. vm_compute. reflexivity.
Defined.

(** ** Clustering: merging, centres and statistics *)

Section MergeFacts.

Import Clustering Props Shape.

Lemma windowBefore_apart l :
  StronglySorted windowBefore l -> windowsApart l.
Proof.
  induction 1 as [|a l Hl IH Ha]; [exact I|].
  destruct l as [|b l]; [exact I|].
  split; [|exact IH]. inversion Ha; subst. assumption.
Qed.

(** X5. On clusters that come in the order of their window starts, merging
    the overlapping windows a second time changes nothing. *)
Theorem mergeOverlappingClusters_idempotent :
  forall clusters : list ConfidenceCluster,
    Sorted windowNotAfter clusters ->
    mergeOverlappingClusters (mergeOverlappingClusters clusters) =
    mergeOverlappingClusters clusters.
Proof.
  intros clusters H. destruct clusters as [|c rest]; trivial.
  rewrite mergeOverlappingClusters_run.
  pose proof (mergeRun_windowBefore rest c H) as Hs.
  pose proof (mergeRun_nonempty rest c) as Hne.
  destruct (mergeRun c rest) as [|d l]; [now elim Hne|].
  rewrite mergeOverlappingClusters_run.
  apply mergeRun_apart, windowBefore_apart, Hs.
Qed.













End MergeFacts.

(** Three windows, the first two of which overlap. *)
Lemma mergeOverlappingClusters_idempotent_witness :
  Clustering.mergeOverlappingClusters
    (Clustering.mergeOverlappingClusters
       [Sample.window 0 10; Sample.window 5 15; Sample.window 30 40]) =
  Clustering.mergeOverlappingClusters
    [Sample.window 0 10; Sample.window 5 15; Sample.window 30 40].
Proof.
  apply (mergeOverlappingClusters_idempotent
           [Sample.window 0 10; Sample.window 5 15; Sample.window 30 40]).
  repeat constructor; vm_compute; discriminate.
Defined.

Section Statistics.

Import Clustering Props Shape.

Lemma fold_left_add_length {A} (f : A -> nat) l :
  forall acc, fold_left (fun sum a => (sum + f a)%nat) l acc
              = (acc + list_sum (map f l))%nat.
Proof.
  induction l as [|a l IH]; intro acc; simpl; [lia|].
  rewrite IH. lia.
Qed.

Lemma wordCount_concat clusters :
  Stats.wordCount clusters = List.length (List.concat (map words clusters)).
Proof.
  unfold Stats.wordCount.
  rewrite (fold_left_add_length (fun c => List.length (words c))). simpl.
  induction clusters as [|c cs IH]; simpl; trivial.
  rewrite length_app, IH. reflexivity.
Qed.

Lemma populated_count clusters :
  Forall (fun c => words c <> []) clusters ->
  (List.length clusters <= List.length (List.concat (map words clusters)))%nat.
Proof.
  induction 1 as [|c cs Hc Hcs IH]; simpl; trivial.
  rewrite length_app. destruct (words c); [now elim Hc | simpl; lia].
Qed.

(** X7. The statistics computed on the clusters of the same words are
    consistent: the words in clusters are the low-confidence words, which
    are no more than all the words; there are no more clusters than
    low-confidence words; and the average cluster size is at least one
    when there is a cluster, zero otherwise. *)
Theorem clustering_stats_consistent :
  forall (options : ClusteringOptions) (ws : list WhisperWord),
    let stats :=
      Stats.getClusteringStats options ws (clusterLowConfidenceWords options ws) in
    Stats.wordsInClusters stats = Stats.lowConfidenceWords stats /\
    (Stats.lowConfidenceWords stats <= Stats.totalWords stats)%nat /\
    (Stats.clustersCreated stats <= Stats.lowConfidenceWords stats)%nat /\
    (Stats.clustersCreated stats = 0%nat -> Stats.averageClusterSize stats == 0) /\
    ((0 < Stats.clustersCreated stats)%nat -> 1 <= Stats.averageClusterSize stats).
Proof.
  intros options ws stats. subst stats.
  cbn [Stats.getClusteringStats Stats.wordsInClusters Stats.lowConfidenceWords
       Stats.totalWords Stats.clustersCreated Stats.averageClusterSize].
  pose proof (clusterLowConfidenceWords_words options ws) as Hw.
  pose proof (clusterLowConfidenceWords_populated options ws) as Hp.
  apply populated_count in Hp. rewrite Hw in Hp.
  rewrite wordCount_concat, Hw.
  repeat split.
  - unfold lowConfidenceWords. apply filter_length_le.
  - exact Hp.
  - intros ->. reflexivity.
  - intro Hpos. apply Nat.ltb_lt in Hpos as Hb. rewrite Hb.
    assert (R1 : Num.round 1 == 1) by (vm_compute; reflexivity).
    rewrite <- R1. unfold Num.div. apply round_mono.
    apply Qle_shift_div_l; [apply ofNat_pos, Hpos|].
    rewrite Qmult_1_l. unfold Num.ofNat.
    rewrite <- Zle_Qle. lia.
Qed.

(** The binary64 sum of [n] probabilities between 0 and 1, added to a
    number between 0 and [k], lies between 0 and [k + n]: the whole numbers
    up to [2^53] are binary64 numbers. *)
Lemma sum_probabilities_bounds ws :
  Forall (fun w => 0 <= probability w /\ probability w <= 1) ws ->
  forall (k : nat) (acc : Q),
    (Z.of_nat (k + List.length ws) <= 2 ^ 53)%Z ->
    0 <= acc -> acc <= Num.ofNat k ->
    0 <= fold_left (fun acc w => Num.add acc (probability w)) ws acc /\
    fold_left (fun acc w => Num.add acc (probability w)) ws acc
      <= Num.ofNat (k + List.length ws).
Proof.
  induction 1 as [|a l [Ha1 Ha2] Hl IH]; intros k acc Hk H0 H1.
  - cbn [fold_left List.length]. rewrite Nat.add_0_r. split; assumption.
  - cbn [fold_left List.length] in *.
    replace (k + S (List.length l))%nat with (S k + List.length l)%nat in * by lia.
    apply IH; [exact Hk | |].
    + unfold Num.add. apply round_nonneg. lra.
    + assert (D : isDouble (Num.ofNat (S k))) by (apply isDouble_nat; lia).
      unfold isDouble in D. rewrite <- D. unfold Num.add. apply round_mono.
      rewrite ofNat_S. lra.
Qed.

(** X8. [calculateAverageConfidence] is 1 on the empty list, and on a list
    of at most [2^53] words whose probabilities lie between 0 and 1 it lies
    between 0 and 1. *)
Theorem average_confidence_bounds :
  Confidence.calculateAverageConfidence [] == 1 /\
  forall ws : list WhisperWord,
    (Z.of_nat (List.length ws) <= 2 ^ 53)%Z ->
    Forall (fun w => 0 <= probability w /\ probability w <= 1) ws ->
    0 <= Confidence.calculateAverageConfidence ws /\
    Confidence.calculateAverageConfidence ws <= 1.
Proof.
  split; [reflexivity|].
  intros ws Hn H.
  destruct ws as [|a l]; [split; vm_compute; discriminate|].
  unfold Confidence.calculateAverageConfidence.
  assert (Hpos : 0 < Num.ofNat (List.length (a :: l)))
    by (apply ofNat_pos; simpl; lia).
  destruct (sum_probabilities_bounds (a :: l) H 0 0 Hn) as [S1 S2];
    [apply Qle_refl | apply Qle_refl |].
  rewrite Nat.add_0_l in S2.
  assert (R1 : Num.round 1 == 1) by (vm_compute; reflexivity).
  unfold Num.div. split.
  - apply round_nonneg. apply Qle_shift_div_l; [exact Hpos | lra].
  - rewrite <- R1. apply round_mono.
    apply Qle_shift_div_r; [exact Hpos | lra].
Qed.

End Statistics.

(** Two words with probabilities 0.45 and 0.40: the mean is in [0, 1]. *)
Lemma average_confidence_bounds_witness :
  0 <= Confidence.calculateAverageConfidence Scenario.farPair /\
  Confidence.calculateAverageConfidence Scenario.farPair <= 1.
Proof.
  destruct average_confidence_bounds as [_ H].
  apply (H Scenario.farPair).
  - vm_compute. discriminate.
  - repeat constructor; vm_compute; discriminate.
Defined.

(** ** Reconciliation: counting and judging corrections *)

Section Counting.

Import Reconciliation Props Shape.

Lemma accepted_insert c cs :
  List.length (accepted (insertByClipStart c cs)) = List.length (accepted (c :: cs)).
Proof.
  unfold accepted. induction cs as [|d cs IH]; trivial.
  cbn [insertByClipStart]. destruct (Num.leb _ _); trivial.
  cbn [filter] in *.
  destruct (Correction.shouldApply d), (Correction.shouldApply c);
    cbn [List.length] in *; lia.
Qed.

Lemma accepted_sort cs :
  List.length (accepted (sortByClipStart cs)) = List.length (accepted cs).
Proof.
  induction cs as [|c cs IH]; trivial.
  cbn [sortByClipStart fold_right]. fold (sortByClipStart cs).
  rewrite accepted_insert. unfold accepted in *. cbn [filter].
  destruct (Correction.shouldApply c); cbn [List.length]; lia.
Qed.

Lemma mergeLoop_counts cs :
  forall st,
    applied (fold_left mergeStep cs st) =
      (applied st + List.length (accepted cs))%nat /\
    (applied (fold_left mergeStep cs st) + skipped (fold_left mergeStep cs st) =
      applied st + skipped st + List.length cs)%nat.
Proof.
  induction cs as [|c cs IH]; intro st; cbn [fold_left].
  - simpl. lia.
  - destruct (IH (mergeStep st c)) as [I1 I2].
    split; [rewrite I1 | rewrite I2];
      unfold mergeStep, accepted; cbn [filter];
      destruct (Correction.shouldApply c); cbn [negb];
      try destruct (emitBefore _ _ _); cbn [applied skipped List.length]; lia.
Qed.

(** X9. Every correction is counted once: the applied ones are those with
    [shouldApply], and applied plus skipped is the number of corrections. *)
Theorem merge_counts_every_correction :
  forall (ws : list WhisperWord) (cs : list Correction.t),
    appliedCorrections (mergeTranscript ws cs) =
      List.length (filter Correction.shouldApply cs) /\
    (appliedCorrections (mergeTranscript ws cs) +
     skippedCorrections (mergeTranscript ws cs) = List.length cs)%nat.
Proof.
  intros ws cs. destruct cs as [|c cs]; [split; reflexivity|].
  unfold mergeTranscript. cbn [appliedCorrections skippedCorrections].
  match goal with |- context [fold_left mergeStep ?l ?s] =>
    destruct (mergeLoop_counts l s) as [I1 I2] end.
  split; [rewrite I1 | rewrite I2]; cbn [applied skipped].
  - rewrite accepted_sort. reflexivity.
  - rewrite sortByClipStart_length. reflexivity.
Qed.

End Counting.

Section Judging.

Import Reconciliation Props Shape.

Variable toFixed2 : Q -> Str.t.

(** X10. [reconcile] always succeeds and returns the cleaned candidate as
    corrected text; it gives a reason exactly when it rejects; and it accepts
    exactly when the cleaned candidate passes the first guard (so has three
    units at least), the edit ratio is at most 0.7 and the cleaned texts
    differ. *)
Theorem reconcile_verdict :
  forall (ws : list WhisperWord) (candidate : Str.t) (clipStart clipEnd : Q),
    let r := reconcile toFixed2 ws candidate clipStart clipEnd in
    let cleanedOriginal := cleanText (windowText ws clipStart clipEnd) in
    let cleanedCorrection := cleanText candidate in
    success r = true /\
    correctedText r = cleanedCorrection /\
    levenshteinDistance r = levenshtein cleanedOriginal cleanedCorrection /\
    (shouldApply r = true <-> reason r = None) /\
    (shouldApply r = true <->
       (3 <= List.length cleanedCorrection)%nat /\
       emptyOrUnintelligible cleanedCorrection = false /\
       editRatio cleanedOriginal cleanedCorrection <= MAX_LEVENSHTEIN_RATIO /\
       cleanedOriginal <> cleanedCorrection).
Proof.
  intros ws cand cs ce r co cc. subst r. unfold reconcile. fold co. fold cc.
  destruct (emptyOrUnintelligible cc) eqn:G.
  - cbn [success correctedText levenshteinDistance shouldApply reason].
    repeat split; try discriminate. intros (_ & Hg & _). discriminate Hg.
  - destruct (Num.ltb MAX_LEVENSHTEIN_RATIO (editRatio co cc)) eqn:R.
    + cbn [success correctedText levenshteinDistance shouldApply reason].
      repeat split; try discriminate.
      intros (_ & _ & Hr & _). apply ltb_lt in R. exfalso.
      exact (Qlt_not_le _ _ R Hr).
    + apply ltb_ge in R. destruct (Str.eqb co cc) eqn:E.
      * apply eqb_eq in E.
        cbn [success correctedText levenshteinDistance shouldApply reason].
        repeat split; try discriminate.
        intros (_ & _ & _ & Hd). now elim Hd.
      * cbn [success correctedText levenshteinDistance shouldApply reason].
        repeat split; trivial.
        -- now apply passes_first_guard_length.
        -- intro Heq. apply eqb_eq in Heq. congruence.
Qed.

Lemma last_seq n : last (seq 0 (S n)) 0%nat = n.
Proof.
  rewrite seq_S. simpl.
  generalize (seq 0 n). intro l. induction l as [|a l IH]; trivial.
  simpl. destruct (l ++ [n]) eqn:E; [destruct l; discriminate | exact IH].
Qed.

Lemma levenshtein_nil_l b : levenshtein [] b = List.length b.
Proof. unfold levenshtein. cbn [fold_left]. apply last_seq. Qed.

Lemma editRatio_nil_l c : (0 < List.length c)%nat -> editRatio [] c == 1.
Proof.
  intro H. rewrite editRatio_quotient by exact H.
  rewrite levenshtein_nil_l. cbn [List.length Nat.max].
  apply Qmult_inv_r. intro E.
  pose proof (ofNat_pos _ H) as P. rewrite E in P. discriminate P.
Qed.

(** X11. When no original word lies wholly inside the window, [reconcile]
    never accepts the candidate: it is rejected by the first guard or,
    failing that, by the ratio guard, the ratio then being one. *)
Theorem empty_window_never_accepted :
  forall (ws : list WhisperWord) (candidate : Str.t) (clipStart clipEnd : Q),
    wordsInWindow ws clipStart clipEnd = [] ->
    let r := reconcile toFixed2 ws candidate clipStart clipEnd in
    shouldApply r = false /\
    originalText r = [] /\
    (emptyOrUnintelligible (cleanText candidate) = false ->
     exists why, reason r = Some why /\
                 Str.includes (Str.lit "Levenshtein") why = true).
Proof.
  intros ws cand cs ce H r. subst r. unfold reconcile, windowText. rewrite H.
  cbn [map Str.join].
  change (cleanText []) with (@nil N).
  destruct (emptyOrUnintelligible (cleanText cand)) eqn:G.
  - cbn. repeat split. discriminate.
  - assert (R : Num.ltb MAX_LEVENSHTEIN_RATIO (editRatio [] (cleanText cand)) = true).
    { apply ltb_lt. rewrite editRatio_nil_l.
      - reflexivity.
      - apply passes_first_guard_length in G. lia. }
    rewrite R. cbn [shouldApply originalText reason]. repeat split.
    intros _. eexists. split; [reflexivity|].
    change (Str.lit "Levenshtein ratio too high: ")
      with (Str.lit "Levenshtein" ++ Str.lit " ratio too high: ").
    rewrite <- app_assoc. apply includes_prefix.
Qed.

End Judging.

(** A window that cuts through the only word. *)
Lemma empty_window_never_accepted_witness :
  Reconciliation.shouldApply
    (Reconciliation.reconcile Scenario.noDigits
       [mkWord (Str.lit "Hello") 0 0.5 0.95] (Str.lit "Hello there") 0.1 0.4)
  = false.
Proof.
  apply (empty_window_never_accepted Scenario.noDigits
           [mkWord (Str.lit "Hello") 0 0.5 0.95] (Str.lit "Hello there") 0.1 0.4).
  reflexivity.
Defined.

(** ** Reconciliation: the alphabet of cleaned text *)

Section CleanAlphabet.

Import Reconciliation Props Shape.

Lemma lowerUnit_no_upper c :
  Forall (fun u => Auth.isUpper u = false) (Str.lowerUnit c).
Proof.
  unfold Str.lowerUnit, Auth.isUpper.
  destruct ((65 <=? c) && (c <=? 90))%N eqn:U.
  - apply andb_true_iff in U as [U1 U2]. apply N.leb_le in U1, U2.
    repeat constructor. apply andb_false_iff. right. apply N.leb_gt. lia.
  - destruct (c =? 304)%N; [repeat constructor|].
    destruct (c =? 8490)%N; [repeat constructor|].
    repeat constructor. exact U.
Qed.

Lemma toLowerCase_no_upper s :
  Forall (fun u => Auth.isUpper u = false) (Str.toLowerCase s).
Proof.
  unfold Str.toLowerCase. induction s as [|c s IH]; simpl; [constructor|].
  apply Forall_app. split; [apply lowerUnit_no_upper | exact IH].
Qed.

Lemma strip_lower_stripped s :
  Forall stripped (Str.stripNonWordNonSpace (Str.toLowerCase s)).
Proof.
  unfold Str.stripNonWordNonSpace. apply Forall_forall. intros c Hc.
  apply filter_In in Hc as [Hin Hc].
  pose proof (toLowerCase_no_upper s) as Hu.
  rewrite Forall_forall in Hu. specialize (Hu c Hin).
  apply orb_true_iff in Hc as [Hc | Hc]; [left; split; assumption | right; exact Hc].
Qed.

Lemma stripped_cleanUnit c :
  stripped c -> Str.isSpace c = false -> cleanUnit c = true.
Proof.
  intros [[Hw Hu] | Hs] Hn; [|congruence].
  unfold Str.isWordChar, Auth.isUpper, cleanUnit in *.
  rewrite Hu in Hw. cbn [orb] in Hw. rewrite Hw. reflexivity.
Qed.

Lemma collapseFrom_cleanUnit s :
  Forall stripped s ->
  forall inRun, Forall (fun c => cleanUnit c = true) (Str.collapseFrom inRun s).
Proof.
  induction 1 as [|c s Hc Hs IH]; intro inRun; cbn [Str.collapseFrom];
    [constructor|].
  destruct (Str.isSpace c) eqn:Sp.
  - destruct inRun; [apply IH|]. constructor; [reflexivity | apply IH].
  - constructor; [now apply stripped_cleanUnit | apply IH].
Qed.

(** Inside a run the next unit written is not white space. *)
Lemma collapseFrom_true_head s c t :
  Str.collapseFrom true s = c :: t -> c <> 32%N.
Proof.
  induction s as [|d s IH]; cbn [Str.collapseFrom]; [discriminate|].
  destruct (Str.isSpace d) eqn:Sp; [exact IH|].
  intros E Hc. injection E as -> _. subst. discriminate Sp.
Qed.

Lemma collapseFrom_singleSpaced s :
  forall inRun, singleSpaced (Str.collapseFrom inRun s).
Proof.
  induction s as [|c s IH]; intro inRun; cbn [Str.collapseFrom]; [exact I|].
  destruct (Str.isSpace c) eqn:Sp.
  - destruct inRun; [apply IH|].
    specialize (IH true).
    destruct (Str.collapseFrom true s) as [|x t] eqn:E; [exact I|].
    split; [|exact IH].
    intros [_ Hx]. exact (collapseFrom_true_head s x t E Hx).
  - specialize (IH false).
    destruct (Str.collapseFrom false s) as [|x t] eqn:E; [exact I|].
    split; [|exact IH].
    intros [Hc _]. subst. discriminate Sp.
Qed.

(** X12. Whatever the input, the text [cleanText] returns is made of the
    units [a-z], [0-9], the underscore and the space only, and never has two
    spaces in a row. *)
Theorem cleanText_alphabet :
  forall s : Str.t,
    Forall (fun c => cleanUnit c = true) (cleanText s) /\
    singleSpaced (cleanText s).
Proof.
  intro s. unfold cleanText, Str.collapseWhitespace. split.
  - apply collapseFrom_cleanUnit, strip_lower_stripped.
  - apply collapseFrom_singleSpaced.
Qed.

End CleanAlphabet.

(** ** Reconciliation: the tokens of the merged transcript *)

Section MergedTokens.

Import Reconciliation Props Shape.

Lemma Subsequence_refl {A} (l : list A) : Subsequence l l.
Proof. induction l; constructor; assumption. Qed.

Lemma Subsequence_nil {A} (l : list A) : Subsequence [] l.
Proof. induction l; constructor; assumption. Qed.

Lemma Subsequence_app {A} (a a' b b' : list A) :
  Subsequence a a' -> Subsequence b b' -> Subsequence (a ++ b) (a' ++ b').
Proof.
  intros Ha Hb. induction Ha; simpl; try constructor; assumption.
Qed.

Lemma Interleaved_left {A} (l : list A) : Interleaved l [] l.
Proof. induction l; constructor; assumption. Qed.

Lemma Interleaved_app_left {A} (l1 l2 m x : list A) :
  Interleaved l1 l2 m -> Interleaved (l1 ++ x) l2 (m ++ x).
Proof.
  induction 1; simpl; try constructor; trivial. apply Interleaved_left.
Qed.

Lemma Interleaved_snoc_right {A} (l1 l2 m : list A) y :
  Interleaved l1 l2 m -> Interleaved l1 (l2 ++ [y]) (m ++ [y]).
Proof.
  induction 1; simpl; try constructor; trivial. constructor.
Qed.

Lemma emitBefore_split clipStart rem :
  forall merged,
    exists pre post,
      rem = pre ++ post /\
      emitBefore clipStart merged rem = (merged ++ map word pre, post).
Proof.
  induction rem as [|w rem IH]; intro merged; cbn [emitBefore].
  - exists [], []. split; [reflexivity | now rewrite app_nil_r].
  - destruct (Num.leb _ _).
    + destruct (IH (merged ++ [word w])) as (pre & post & E & ->).
      exists (w :: pre), post. split; [now rewrite E|].
      cbn [map]. now rewrite <- app_assoc.
    + exists [], (w :: rem). split; [reflexivity | now rewrite app_nil_r].
Qed.

Lemma skipWindow_suffix clipEnd rem :
  exists dropped, rem = dropped ++ skipWindow clipEnd rem.
Proof.
  induction rem as [|w rem [dropped E]]; cbn [skipWindow].
  - exists []. reflexivity.
  - destruct (Num.ltb _ _).
    + exists (w :: dropped). simpl. now f_equal.
    + exists []. reflexivity.
Qed.

(** The loop keeps what it has read apart from what is left to read: the
    words kept so far are some of the words read, in order, and the merged
    words are those kept, with the corrections applied so far among them. *)
Lemma mergeLoop_tokens originalWords cs :
  forall st consumed kept done,
    originalWords = consumed ++ remaining st ->
    Subsequence kept consumed ->
    Interleaved (map word kept) (map Correction.correctedText done) (mergedWords st) ->
    exists consumed' kept',
      originalWords = consumed' ++ remaining (fold_left mergeStep cs st) /\
      Subsequence kept' consumed' /\
      Interleaved (map word kept')
        (map Correction.correctedText (done ++ accepted cs))
        (mergedWords (fold_left mergeStep cs st)).
Proof.
  induction cs as [|c cs IH]; intros st consumed kept done Ho Hk Hi.
  - exists consumed, kept. cbn [fold_left accepted filter].
    rewrite app_nil_r. repeat split; assumption.
  - cbn [fold_left]. unfold accepted. cbn [filter].
    destruct (Correction.shouldApply c) eqn:Hc.
    + destruct (emitBefore_split (Correction.clipStart c) (remaining st)
                  (mergedWords st)) as (pre & post & E & Eemit).
      destruct (skipWindow_suffix (Correction.clipEnd c) post) as [dropped D].
      assert (Estep : mergeStep st c =
                {| mergedWords := (mergedWords st ++ map word pre)
                                    ++ [Correction.correctedText c];
                   remaining := skipWindow (Correction.clipEnd c) post;
                   applied := S (applied st);
                   skipped := skipped st |})
        by (unfold mergeStep; rewrite Hc, Eemit; reflexivity).
      rewrite Estep.
      destruct (IH {| mergedWords := (mergedWords st ++ map word pre)
                                       ++ [Correction.correctedText c];
                      remaining := skipWindow (Correction.clipEnd c) post;
                      applied := S (applied st);
                      skipped := skipped st |}
                   (consumed ++ pre ++ dropped) (kept ++ pre) (done ++ [c]))
        as (consumed' & kept' & Ho' & Hk' & Hi').
      * cbn [remaining]. rewrite Ho, E, D at 1. now rewrite <- !app_assoc.
      * apply Subsequence_app; [exact Hk|].
        rewrite <- (app_nil_r pre) at 1.
        apply Subsequence_app; [apply Subsequence_refl | apply Subsequence_nil].
      * cbn [mergedWords]. rewrite !map_app. cbn [map].
        apply Interleaved_snoc_right, Interleaved_app_left, Hi.
      * exists consumed', kept'. rewrite <- app_assoc in Hi'.
        repeat split; assumption.
    + assert (Estep : mergeStep st c =
                {| mergedWords := mergedWords st; remaining := remaining st;
                   applied := applied st; skipped := S (skipped st) |})
        by (unfold mergeStep; rewrite Hc; reflexivity).
      rewrite Estep.
      apply (IH _ consumed kept done); assumption.
Qed.

(** X13. The tokens handed to [joinWords] are some of the original words,
    each at most once and in the original order, with the texts of the
    applied corrections, in the order of their window starts, placed among
    them; with a correction list that is not empty the returned text is
    [joinWords] of these tokens. *)
Theorem merged_tokens_interleave :
  forall (ws : list WhisperWord) (cs : list Correction.t),
    (exists kept,
       Subsequence kept ws /\
       Interleaved (map word kept)
         (map Correction.correctedText (accepted (sortByClipStart cs)))
         (mergedTokens ws cs)) /\
    (cs <> [] -> text (mergeTranscript ws cs) = joinWords (mergedTokens ws cs)).
Proof.
  intros ws cs. split.
  - unfold mergedTokens.
    destruct (mergeLoop_tokens ws (sortByClipStart cs)
                {| mergedWords := []; remaining := ws; applied := 0; skipped := 0 |}
                [] [] [])
      as (consumed & kept & Ho & Hk & Hi);
      [reflexivity | constructor | constructor |].
    cbn [app] in Hi.
    exists (kept ++ remaining (fold_left mergeStep (sortByClipStart cs)
                                {| mergedWords := []; remaining := ws;
                                   applied := 0; skipped := 0 |})).
    split.
    + rewrite Ho at 2.
      apply Subsequence_app; [exact Hk | apply Subsequence_refl].
    + rewrite map_app. apply Interleaved_app_left, Hi.
  - intro Hne. destruct cs as [|c cs]; [now elim Hne | reflexivity].
Qed.

End MergedTokens.

(** ** The second-pass client: cleaning the transcription *)

Section Transcription.

Import Props Shape.

Lemma dropWhile_suffix f s : exists pre, s = pre ++ Str.dropWhile f s.
Proof.
  induction s as [|c s [pre E]]; cbn [Str.dropWhile].
  - exists []. reflexivity.
  - destruct (f c); [|exists []; reflexivity].
    exists (c :: pre). simpl. now f_equal.
Qed.

Lemma matchLiteral_suffix pattern :
  forall s after, Qwen.matchLiteral pattern s = Some after ->
                  exists pre, s = pre ++ after.
Proof.
  induction pattern as [|p pattern IH]; intros s after H.
  - destruct s; injection H as <-; exists []; reflexivity.
  - destruct s as [|c s]; [discriminate|]. cbn [Qwen.matchLiteral] in H.
    destruct (Qwen.foldUnit p =? Qwen.foldUnit c)%N; [|discriminate].
    destruct (IH s after H) as [pre E]. exists (c :: pre). simpl. now f_equal.
Qed.

Lemma matchAlternatives_suffix alternatives s after :
  Qwen.matchAlternatives alternatives s = Some after -> exists pre, s = pre ++ after.
Proof.
  induction alternatives as [|a rest IH]; cbn [Qwen.matchAlternatives];
    [discriminate|].
  destruct (Qwen.matchLiteral a s) as [r|] eqn:E; [|exact IH].
  intro H. injection H as <-. exact (matchLiteral_suffix a s r E).
Qed.

Lemma removePreamble_suffix cleaned alternatives :
  exists pre, cleaned = pre ++ Qwen.removePreamble cleaned alternatives.
Proof.
  unfold Qwen.removePreamble.
  destruct (Qwen.matchAlternatives alternatives cleaned) as [after|] eqn:E.
  - destruct (matchAlternatives_suffix _ _ _ E) as [pre ->].
    destruct (dropWhile_suffix Str.isSpace after) as [sp E'].
    exists (pre ++ sp). rewrite <- app_assoc. now f_equal.
  - exists []. reflexivity.
Qed.

Lemma removePreambles_suffix patterns :
  forall cleaned,
    exists pre, cleaned = pre ++ fold_left Qwen.removePreamble patterns cleaned.
Proof.
  induction patterns as [|alts patterns IH]; intro cleaned; cbn [fold_left].
  - exists []. reflexivity.
  - destruct (removePreamble_suffix cleaned alts) as [pre E].
    destruct (IH (Qwen.removePreamble cleaned alts)) as [pre' E'].
    exists (pre ++ pre'). rewrite <- app_assoc, <- E'. exact E.
Qed.

Lemma trimEnd_idempotent s : Str.trimEnd (Str.trimEnd s) = Str.trimEnd s.
Proof.
  induction s as [|c s IH]; trivial. cbn [Str.trimEnd].
  destruct (Str.trimEnd s) as [|k kept] eqn:K.
  - destruct (Str.isSpace c) eqn:Sp; trivial. simpl. now rewrite Sp.
  - cbn [Str.trimEnd]. cbn [Str.trimEnd] in IH.
    destruct (Str.trimEnd kept) as [|k' kept'].
    + destruct (Str.isSpace k); [discriminate IH | rewrite IH; reflexivity].
    + rewrite IH. reflexivity.
Qed.

(** A text without trailing white space has none after any of its units. *)
Lemma trimEnd_fixed_suffix pre s :
  Str.trimEnd (pre ++ s) = pre ++ s -> Str.trimEnd s = s.
Proof.
  induction pre as [|c pre IH]; trivial.
  intro H. apply IH. cbn [app Str.trimEnd] in H.
  destruct (Str.trimEnd (pre ++ s)) as [|k kept].
  - destruct (Str.isSpace c); [discriminate H|].
    injection H as H. exact H.
  - injection H as H. exact H.
Qed.

Lemma trimEnd_space_last r c :
  Str.isSpace c = true -> Str.trimEnd (r ++ [c]) = Str.trimEnd r.
Proof.
  intro Sp. induction r as [|a r IH].
  - simpl. now rewrite Sp.
  - cbn [app]. apply trimEnd_cons_congr. exact IH.
Qed.

Lemma trimEnd_length s : (List.length (Str.trimEnd s) <= List.length s)%nat.
Proof.
  destruct (trimEnd_split s) as [post [_ E]].
  rewrite E at 2. rewrite length_app. lia.
Qed.

Lemma trimmed_no_edge s :
  Str.trimEnd (Str.trimStart s) = Str.trimStart s ->
  ~ edgeWhitespace (Str.trimStart s).
Proof.
  intros H [(c & r & E & Sp) | (c & r & E & Sp)].
  - unfold Str.trimStart in E. clear H.
    induction s as [|d s IH]; [discriminate|].
    cbn [Str.dropWhile] in E. destruct (Str.isSpace d) eqn:Sd; [exact (IH E)|].
    injection E as -> _. congruence.
  - rewrite E in H. rewrite (trimEnd_space_last r c Sp) in H.
    pose proof (trimEnd_length r) as L. rewrite H, length_app in L.
    simpl in L. lia.
Qed.

(** The cleaned transcription is the trimmed text with a front part taken
    off, and that is already trimmed. *)
Lemma cleanTranscription_trimStart text :
  exists pre,
    Str.trim text = pre ++ Qwen.cleanTranscription text /\
    exists body, Qwen.cleanTranscription text = Str.trimStart body /\
                 Str.trimEnd (Str.trimStart body) = Str.trimStart body.
Proof.
  unfold Qwen.cleanTranscription.
  destruct (removePreambles_suffix Qwen.preambles (Str.trim text)) as [pre E].
  set (body := fold_left Qwen.removePreamble Qwen.preambles (Str.trim text)) in *.
  destruct (dropWhile_suffix Str.isSpace body) as [sp Es].
  fold (Str.trimStart body) in Es.
  assert (Hfix : Str.trimEnd (Str.trimStart body) = Str.trimStart body).
  { apply (trimEnd_fixed_suffix (pre ++ sp)).
    rewrite <- app_assoc, <- Es, <- E.
    unfold Str.trim. apply trimEnd_idempotent. }
  exists (pre ++ sp).
  change (Str.trim body) with (Str.trimEnd (Str.trimStart body)).
  rewrite Hfix. split.
  - rewrite <- app_assoc, <- Es. exact E.
  - exists body. split; [reflexivity | exact Hfix].
Qed.

(** X14. The cleaned transcription is the end of the trimmed response: only
    a front part is ever removed, so the capitalisation and the punctuation
    of what is kept are those of the response; and it neither starts nor
    ends with white space. *)
Theorem cleanTranscription_keeps_tail :
  forall text : Str.t,
    (exists removed, Str.trim text = removed ++ Qwen.cleanTranscription text) /\
    ~ edgeWhitespace (Qwen.cleanTranscription text).
Proof.
  intro text.
  destruct (cleanTranscription_trimStart text) as (pre & E & body & Eb & Hfix).
  split; [exists pre; exact E|].
  rewrite Eb. apply trimmed_no_edge, Hfix.
Qed.

Lemma trim_idempotent s : Str.trim (Str.trim s) = Str.trim s.
Proof.
  unfold Str.trim.
  rewrite (trimEnd_trimStart (Str.trimEnd (Str.trimStart s))).
  rewrite trimEnd_idempotent, <- trimEnd_trimStart.
  unfold Str.trimStart at 1 2.
  assert (D : forall x, Str.dropWhile Str.isSpace (Str.dropWhile Str.isSpace x)
                        = Str.dropWhile Str.isSpace x).
  { intro x. induction x as [|c x IH]; trivial. cbn [Str.dropWhile].
    destruct (Str.isSpace c) eqn:Sp; trivial. cbn [Str.dropWhile]. now rewrite Sp. }
  now rewrite D.
Qed.

(** X15. A response that starts, once trimmed, with none of the preambles
    is only trimmed. *)
Theorem cleanTranscription_without_preamble :
  forall text : Str.t,
    Forall (fun alternatives =>
              Qwen.matchAlternatives alternatives (Str.trim text) = None)
           Qwen.preambles ->
    Qwen.cleanTranscription text = Str.trim text.
Proof.
  intros text H. unfold Qwen.cleanTranscription.
  assert (F : forall patterns cleaned,
             Forall (fun a => Qwen.matchAlternatives a cleaned = None) patterns ->
             fold_left Qwen.removePreamble patterns cleaned = cleaned).
  { induction patterns as [|a patterns IH]; intros cleaned Hp; trivial.
    inversion Hp as [|? ? Ha Hr]; subst. cbn [fold_left].
    unfold Qwen.removePreamble at 2. rewrite Ha. apply IH, Hr. }
  rewrite (F _ _ H). apply trim_idempotent.
Qed.

End Transcription.

(** A plain sentence with spaces around it. *)
Lemma cleanTranscription_without_preamble_witness :
  Qwen.cleanTranscription (Str.lit "  Hello, World.  ") = Str.lit "Hello, World.".
Proof.
  rewrite (cleanTranscription_without_preamble (Str.lit "  Hello, World.  ")).
  - reflexivity.
  - repeat constructor.
Defined.

(** ** The second pass and the reconciliation together *)

Section EmptyAnswer.

Import Props Shape Reconciliation.

Lemma trim_allSpace s : allSpace s -> Str.trim s = [].
Proof.
  intro H. unfold Str.trim, Str.trimStart.
  induction H as [|c s Hc Hs IH]; trivial.
  cbn [Str.dropWhile]. now rewrite Hc.
Qed.

(** X16. When the response of the second pass has no content, or only white
    space, the candidate handed on is the empty string, and [reconcile]
    rejects it for every word list and window with the reason of its first
    guard. *)
Theorem blank_answer_rejected :
  forall (toFixed2 : Q -> Str.t) (result : Qwen.QwenResponse)
         (ws : list WhisperWord) (clipStart clipEnd : Q),
    allSpace (Qwen.transcriptionOf result) ->
    let candidate := Qwen.cleanTranscription (Qwen.transcriptionOf result) in
    let r := reconcile toFixed2 ws candidate clipStart clipEnd in
    candidate = [] /\
    shouldApply r = false /\
    reason r = Some (Str.lit "Corrected text is empty or unintelligible").
Proof.
  intros toFixed2 result ws cs ce H candidate r.
  assert (E : candidate = []).
  { subst candidate. unfold Qwen.cleanTranscription.
    rewrite (trim_allSpace _ H). reflexivity. }
  split; [exact E|]. subst r. rewrite E. unfold reconcile.
  change (emptyOrUnintelligible (cleanText [])) with true.
  split; reflexivity.
Qed.

End EmptyAnswer.

(** A choice whose message has a null content. *)
Lemma blank_answer_rejected_witness :
  Reconciliation.shouldApply
    (Reconciliation.reconcile Scenario.noDigits Scenario.theRedFox
       (Qwen.cleanTranscription
          (Qwen.transcriptionOf
             (Qwen.mkResponse [Qwen.mkChoice (Present (Qwen.mkMessage Null))])))
       0 1) = false.
Proof.
  apply (blank_answer_rejected Scenario.noDigits
           (Qwen.mkResponse [Qwen.mkChoice (Present (Qwen.mkMessage Null))])
           Scenario.theRedFox 0 1).
  constructor.
Defined.

(** ** The correction loop of the worker *)

Section Loop.

Import Clustering Reconciliation Props Shape.

Variable toFixed2 : Q -> Str.t.
Variable secondPass : ConfidenceCluster -> option Str.t.

Lemma collectCorrections_app ws clusters :
  forall corrections,
    Pipeline.collectCorrections toFixed2 secondPass corrections ws clusters =
    corrections ++ Pipeline.collectCorrections toFixed2 secondPass [] ws clusters.
Proof.
  induction clusters as [|c rest IH]; intro corrections;
    cbn [Pipeline.collectCorrections].
  - now rewrite app_nil_r.
  - destruct (secondPass c).
    + rewrite IH, (IH ([] ++ _)). now rewrite <- app_assoc.
    + apply IH.
Qed.

Lemma collectCorrections_length ws clusters :
  (List.length (Pipeline.collectCorrections toFixed2 secondPass [] ws clusters)
   <= List.length clusters)%nat.
Proof.
  induction clusters as [|c rest IH]; cbn [Pipeline.collectCorrections]; trivial.
  destruct (secondPass c).
  - rewrite collectCorrections_app, length_app. simpl. lia.
  - simpl. lia.
Qed.

(** Every correction carries the window start of one of the clusters. *)
Lemma collectCorrections_starts ws (P : Q -> Prop) clusters :
  Forall (fun c => P (clipStart c)) clusters ->
  Forall (fun x => P (Correction.clipStart x))
         (Pipeline.collectCorrections toFixed2 secondPass [] ws clusters).
Proof.
  induction 1 as [|c rest Hc Hr IH]; cbn [Pipeline.collectCorrections];
    [constructor|].
  destruct (secondPass c); [|exact IH].
  rewrite collectCorrections_app. cbn [app]. constructor; [exact Hc | exact IH].
Qed.

Lemma collectCorrections_ascending ws clusters :
  StronglySorted windowNotAfter clusters ->
  ascending (Pipeline.collectCorrections toFixed2 secondPass [] ws clusters).
Proof.
  unfold ascending.
  induction 1 as [|c rest Hr IH Hc]; cbn [Pipeline.collectCorrections];
    [constructor|].
  destruct (secondPass c); [|exact IH].
  rewrite collectCorrections_app. cbn [app]. constructor; [exact IH|].
  apply (collectCorrections_starts ws (fun q => clipStart c <= q)). exact Hc.
Qed.

Lemma sortByClipStart_ascending cs : ascending cs -> sortByClipStart cs = cs.
Proof.
  unfold ascending. induction 1 as [|c cs Hs IH Hc]; trivial.
  cbn [sortByClipStart fold_right]. fold (sortByClipStart cs). rewrite IH.
  destruct cs as [|d cs]; trivial. cbn [insertByClipStart].
  inversion Hc as [|? ? Hd _]; subst. apply leb_le in Hd. now rewrite Hd.
Qed.

(** The returned clusters come in the order of their window starts. *)
Lemma clusters_in_window_order options ws :
  orderedByStart ws -> Forall wellTimed ws ->
  0 < correctionWindow options -> 0 <= proximityThreshold options ->
  StronglySorted windowNotAfter (clusterLowConfidenceWords options ws).
Proof.
  intros Hord Hwell HW Hp.
  destruct (lowConfidenceWords_ordered options ws Hord Hwell) as [Hs Hw].
  rewrite clusterLowConfidenceWords_merge, annotatedClusters_chunks.
  destruct (lowConfidenceWords options ws) as [|first rest]; [constructor|].
  destruct (chunks_readable options Hp rest [first]) as (Hr & Hc & _);
    [discriminate | exact Hs | exact Hw |].
  pose proof (mapIndexFrom_Forall _ _ _ (annotate_closed options HW) _ 0%nat Hr)
    as Hproper.
  pose proof (mapIndexFrom_Sorted _ _ _ (annotate_ordered options) _ 0%nat
                (Sorted_with_Forall _ _ _ Hr Hc)) as Hsorted.
  destruct (mapIndexFrom _ _ _) as [|c cs]; [constructor|].
  rewrite mergeOverlappingClusters_run.
  pose proof (mergeRun_windowBefore cs c Hsorted) as Hb.
  pose proof (mergeRun_Forall _ mergePair_closed cs c Hproper) as Hq.
  clear - Hb Hq. induction Hb as [|a l Hl IH Ha]; [constructor|].
  inversion Hq as [|? ? Hpa Hpl]; subst.
  constructor; [apply IH, Hpl|].
  eapply Forall_impl; [|exact Ha].
  intros b Hab. unfold windowNotAfter, windowBefore, closedWindow in *. lra.
Qed.

(** X17. When no word is below the threshold no correction is attempted and
    the transcript is the words joined by single spaces, with no correction
    applied or skipped, whatever the second pass would answer. *)
Theorem confident_transcript_is_plain_join :
  forall (options : ClusteringOptions) (ws : list WhisperWord),
    lowConfidenceWords options ws = [] ->
    Pipeline.transcribe toFixed2 secondPass options ws =
    {| text := Str.join (Str.lit " ") (map word ws);
       appliedCorrections := 0;
       skippedCorrections := 0 |}.
Proof.
  intros options ws H. unfold Pipeline.transcribe, clusterLowConfidenceWords.
  rewrite H. destruct ws; reflexivity.
Qed.

(** X18. For words in the order of their starts, each with
    [0 <= start < end], a positive window and a proximity threshold that is
    not negative, the corrections reach [mergeTranscript] in the order of
    their window starts, so that its sort leaves them as they are. *)
Theorem corrections_arrive_sorted :
  forall (options : ClusteringOptions) (ws : list WhisperWord),
    orderedByStart ws ->
    Forall wellTimed ws ->
    0 < correctionWindow options ->
    0 <= proximityThreshold options ->
    let corrections :=
      Pipeline.collectCorrections toFixed2 secondPass [] ws
        (clusterLowConfidenceWords options ws) in
    ascending corrections /\ sortByClipStart corrections = corrections.
Proof.
  intros options ws Hord Hwell HW Hp corrections.
  assert (A : ascending corrections).
  { subst corrections. apply collectCorrections_ascending.
    apply clusters_in_window_order; assumption. }
  split; [exact A | apply sortByClipStart_ascending, A].
Qed.

(** X19. The worker applies or skips one correction for each cluster whose
    second pass answered, so never more than there are clusters, and never
    more than there are low-confidence words. *)
Theorem corrections_bounded_by_clusters :
  forall (options : ClusteringOptions) (ws : list WhisperWord),
    let merged := Pipeline.transcribe toFixed2 secondPass options ws in
    let clusters := clusterLowConfidenceWords options ws in
    (appliedCorrections merged + skippedCorrections merged =
     List.length (Pipeline.collectCorrections toFixed2 secondPass [] ws clusters))%nat /\
    (appliedCorrections merged + skippedCorrections merged <= List.length clusters)%nat /\
    (List.length clusters <= List.length (lowConfidenceWords options ws))%nat.
Proof.
  intros options ws merged clusters. subst merged. unfold Pipeline.transcribe.
  fold clusters.
  pose proof (collectCorrections_length ws clusters) as L.
  set (cs := Pipeline.collectCorrections toFixed2 secondPass [] ws clusters) in *.
  assert (C : (appliedCorrections (mergeTranscript ws cs) +
               skippedCorrections (mergeTranscript ws cs) = List.length cs)%nat).
  { destruct cs as [|c cs']; [reflexivity|].
    unfold mergeTranscript. cbn [appliedCorrections skippedCorrections].
    match goal with |- context [fold_left mergeStep ?l ?s] =>
      destruct (mergeLoop_counts l s) as [_ I2] end.
    rewrite I2. cbn [applied skipped]. now rewrite sortByClipStart_length. }
  split; [exact C|]. split; [lia|].
  subst clusters.
  eapply Nat.le_trans; [apply clusterLowConfidenceWords_length|].
  apply annotatedClusters_length.
Qed.

End Loop.

(** The answers of the second pass do not matter to the order. *)
Lemma corrections_arrive_sorted_witness :
  Reconciliation.sortByClipStart
    (Pipeline.collectCorrections Scenario.noDigits (Sample.answers "mumble") []
       Scenario.farPair
       (Clustering.clusterLowConfidenceWords Clustering.defaults Scenario.farPair))
  = Pipeline.collectCorrections Scenario.noDigits (Sample.answers "mumble") []
      Scenario.farPair
      (Clustering.clusterLowConfidenceWords Clustering.defaults Scenario.farPair).
Proof.
  apply (corrections_arrive_sorted Scenario.noDigits (Sample.answers "mumble")
           Clustering.defaults Scenario.farPair).
  - repeat constructor. vm_compute. discriminate.
  - repeat constructor; vm_compute; try discriminate; reflexivity.
  - vm_compute. reflexivity.
  - vm_compute. discriminate.
Defined.

(** Two confident words. *)
Lemma confident_transcript_is_plain_join_witness :
  Reconciliation.text
    (Pipeline.transcribe Scenario.noDigits (Sample.answers "mumble")
       Clustering.defaults
       [mkWord (Str.lit "Perfect") 0 0.5 0.95;
        mkWord (Str.lit "transcription") 0.5 1.0 0.98])
  = Str.lit "Perfect transcription".
Proof.
  rewrite (confident_transcript_is_plain_join Scenario.noDigits
             (Sample.answers "mumble") Clustering.defaults).
  - reflexivity.
  - reflexivity.
Defined.

(** ** The validators of the registration route *)

Section Validators.

Import Shape.

Lemma someThen_spec next s :
  Auth.someThen next s = true <->
  exists a r, s = a ++ r /\ a <> [] /\
              forallb Auth.addressUnit a = true /\ next r = true.
Proof.
  split.
  - induction s as [|c s IH]; cbn [Auth.someThen]; [discriminate|].
    intro H. apply andb_true_iff in H as [Hc H].
    apply orb_true_iff in H as [H | H].
    + exists [c], s. repeat split; try discriminate; trivial.
      simpl. now rewrite Hc.
    + destruct (IH H) as (a & r & -> & _ & Ha & Hn).
      exists (c :: a), r. repeat split; try discriminate; trivial.
      simpl. now rewrite Hc, Ha.
  - intros (a & r & -> & Hne & Ha & Hn).
    induction a as [|c a IH]; [now elim Hne|].
    cbn [forallb] in Ha. apply andb_true_iff in Ha as [Hc Ha].
    cbn [app Auth.someThen]. rewrite Hc. cbn [andb].
    destruct a as [|d a]; [cbn [app]; now rewrite Hn|].
    rewrite IH; [apply orb_true_r | discriminate | exact Ha].
Qed.

Lemma unitThen_spec u next s :
  Auth.unitThen u next s = true <-> exists r, s = u :: r /\ next r = true.
Proof.
  unfold Auth.unitThen. split.
  - destruct s as [|c r]; [discriminate|]. intro H.
    apply andb_true_iff in H as [Hc Hn]. apply N.eqb_eq in Hc. subst.
    exists r. split; trivial.
  - intros (r & -> & Hn). now rewrite N.eqb_refl, Hn.
Qed.

Lemma valid_email_has_shape email :
  Auth.isValidEmail email = true -> addressShape email.
Proof.
  unfold Auth.isValidEmail, addressShape. intro H.
  apply someThen_spec in H as (a & r1 & -> & Ha & Fa & H).
  apply unitThen_spec in H as (r2 & -> & H).
  apply someThen_spec in H as (b & r3 & -> & Hb & Fb & H).
  apply unitThen_spec in H as (r4 & -> & H).
  apply someThen_spec in H as (c & r5 & -> & Hc & Fc & H).
  destruct r5; [|discriminate H].
  exists a, b, c. rewrite app_nil_r. repeat split; assumption.
Qed.

(** X20. [isValidEmail] accepts exactly the strings of the shape
    [local@domain.tld] in which the three parts are not empty and hold
    neither white space nor [@]. *)
Theorem isValidEmail_shape :
  forall email : Str.t, Auth.isValidEmail email = true <-> addressShape email.
Proof.
  intro email. split; [apply valid_email_has_shape|].
  unfold Auth.isValidEmail, addressShape.
  intros (a & b & c & -> & Ha & Hb & Hc & Fa & Fb & Fc).
  apply someThen_spec. exists a, ([64%N] ++ b ++ [46%N] ++ c).
  repeat split; trivial.
  apply unitThen_spec. exists (b ++ [46%N] ++ c). split; trivial.
  apply someThen_spec. exists b, ([46%N] ++ c). repeat split; trivial.
  apply unitThen_spec. exists c. split; trivial.
  apply someThen_spec. exists c, []. rewrite app_nil_r. repeat split; trivial.
Qed.

Lemma addressUnit_count a :
  forallb Auth.addressUnit a = true ->
  count_occ N.eq_dec a 64%N = 0%nat /\ Forall (fun c => Str.isSpace c = false) a.
Proof.
  induction a as [|c a IH]; cbn [forallb]; intro H; [split; [reflexivity | constructor]|].
  apply andb_true_iff in H as [Hc H]. destruct (IH H) as [I1 I2].
  unfold Auth.addressUnit in Hc. apply andb_true_iff in Hc as [Hs Hat].
  apply negb_true_iff in Hs, Hat. apply N.eqb_neq in Hat.
  split; [|constructor; assumption].
  cbn [count_occ]. destruct (N.eq_dec c 64); [contradiction | exact I1].
Qed.

(** X21. An address that [isValidEmail] accepts holds exactly one [@], no
    white space, and five units at least. *)
Theorem valid_email_one_at_sign :
  forall email : Str.t,
    Auth.isValidEmail email = true ->
    count_occ N.eq_dec email 64%N = 1%nat /\
    Forall (fun c => Str.isSpace c = false) email /\
    (5 <= List.length email)%nat.
Proof.
  intros email H. apply valid_email_has_shape in H.
  destruct H as (a & b & c & -> & Ha & Hb & Hc & Fa & Fb & Fc).
  destruct (addressUnit_count a Fa) as [A1 A2].
  destruct (addressUnit_count b Fb) as [B1 B2].
  destruct (addressUnit_count c Fc) as [C1 C2].
  repeat split.
  - rewrite !count_occ_app, A1, B1, C1. reflexivity.
  - repeat (apply Forall_app; split); trivial; repeat constructor.
  - rewrite !length_app.
    destruct a; [now elim Ha|]. destruct b; [now elim Hb|].
    destruct c; [now elim Hc|]. simpl. lia.
Qed.

End Validators.

(** The shortest accepted address. *)
Lemma valid_email_one_at_sign_witness :
  count_occ N.eq_dec (Str.lit "a@b.c") 64%N = 1%nat /\
  Forall (fun c => Str.isSpace c = false) (Str.lit "a@b.c") /\
  (5 <= List.length (Str.lit "a@b.c"))%nat.
Proof.
  apply (valid_email_one_at_sign (Str.lit "a@b.c")). reflexivity.
Defined.

Section Passwords.

Lemma existsb_In (f : N -> bool) s :
  existsb f s = true <-> exists c, In c s /\ f c = true.
Proof. apply existsb_exists. Qed.

(** X22. [isValidPassword] accepts a password exactly when it has eight
    units at least and holds a lower-case letter, an upper-case letter and a
    digit; it gives a message exactly when it rejects. *)
Theorem isValidPassword_rule :
  forall password : Str.t,
    (Auth.valid (Auth.isValidPassword password) = true <->
       (8 <= List.length password)%nat /\
       (exists c, In c password /\ Auth.isLower c = true) /\
       (exists c, In c password /\ Auth.isUpper c = true) /\
       (exists c, In c password /\ Auth.isDigit c = true)) /\
    (Auth.valid (Auth.isValidPassword password) = true <->
       Auth.message (Auth.isValidPassword password) = None).
Proof.
  intro password. unfold Auth.isValidPassword.
  destruct (List.length password <? 8)%nat eqn:L.
  - apply Nat.ltb_lt in L. cbn [Auth.valid Auth.message].
    split; split; try discriminate. intros [H _]. lia.
  - apply Nat.ltb_ge in L.
    destruct (existsb Auth.isLower password) eqn:Lo; cbn [negb].
    2:{ cbn [Auth.valid Auth.message]. split; split; try discriminate.
        intros (_ & H & _). apply existsb_In in H. congruence. }
    destruct (existsb Auth.isUpper password) eqn:Up; cbn [negb].
    2:{ cbn [Auth.valid Auth.message]. split; split; try discriminate.
        intros (_ & _ & H & _). apply existsb_In in H. congruence. }
    destruct (existsb Auth.isDigit password) eqn:Di; cbn [negb].
    2:{ cbn [Auth.valid Auth.message]. split; split; try discriminate.
        intros (_ & _ & _ & H). apply existsb_In in H. congruence. }
    cbn [Auth.valid Auth.message]. split; split; trivial.
    intros _. repeat split; trivial; now apply existsb_In.
Qed.

End Passwords.
